(** * TreeScope: the scope forest of a document with shadow trees

    A shallow embedding of [core/dom/TreeScope.cpp] (Blink, as shipped in
    QtWebEngine 5.10.1) and the properties of its navigation, retargeting
    and identifier-index operations.

    Pointers are modelled as indices into a heap of records.  A [Document]
    and a [ShadowRoot] both inherit from [TreeScope] in the source, so one
    pointer type serves for tree scopes, documents and shadow roots.
    Loops that follow pointers take a budget; running out of it is a
    distinguished outcome, as is a failed assertion. *)

From Stdlib Require Import ZArith Ascii.
From stdpp Require Import strings base tactics option list sorting gmap functions.

Local Open Scope Z_scope.

(** ** Outcomes of a call *)

Inductive outcome (A : Type) : Type :=
| Done (a : A)     (* the call returns [a] *)
| AssertFail       (* a DCHECK fails, or a null or mistyped pointer is used *)
| NoFuel.          (* the budget of the model ran out before the loop ended *)
Arguments Done {A} a.
Arguments AssertFail {A}.
Arguments NoFuel {A}.

Global Instance outcome_ret : MRet outcome := @Done.
Global Instance outcome_bind : MBind outcome := λ A B f m,
  match m with
  | Done a => f a
  | AssertFail => AssertFail
  | NoFuel => NoFuel
  end.

(** ** Document positions ([Node::DocumentPosition], an [unsigned short]) *)

(** Modelled from the spec: the enumerators of [Node::DocumentPosition] are
    declared in [Node.h], which is not part of the source unit; the verdicts
    the spec names carry the bit values the DOM standard assigns to them. *)
Definition kDocumentPositionEquivalent : Z := 0x00.
Definition kDocumentPositionDisconnected : Z := 0x01.
Definition kDocumentPositionPreceding : Z := 0x02.
Definition kDocumentPositionFollowing : Z := 0x04.
Definition kDocumentPositionContains : Z := 0x08.
Definition kDocumentPositionContainedBy : Z := 0x10.
Definition kDocumentPositionImplementationSpecific : Z := 0x20.

(** ** The heap of tree scopes and elements *)

Module Forest.

Abbreviation ScopePtr := nat (only parsing).   (* TreeScope*, Document*, ShadowRoot* *)
Abbreviation NodePtr := nat (only parsing).    (* Node*, Element* *)
Abbreviation AtomicString := string (only parsing).

(** Modelled from the spec: the encapsulation mode of a shadow sub-tree
    ([ShadowRoot.h] is not part of the source unit); [Strict] is the V1
    mode, [Legacy] the V0 mode, [Internal] the user-agent mode. *)
Inductive ShadowRootType := Strict | Legacy | Internal.

Global Instance ShadowRootType_eq_dec : EqDecision ShadowRootType.
Proof. solve_decision. Defined.

Record ShadowRoot := {
  host : NodePtr;                          (* the element the sub-tree hangs under *)
  older_shadow_root : option ScopePtr;     (* the previous generation on that host *)
  type : ShadowRootType
}.

(** The root node of a tree scope is the document or a shadow root. *)
Inductive ContainerNode :=
| DocumentNode
| ShadowRootNode (sr : ShadowRoot).

(** Modelled from the spec: [TreeOrderedMap] (the identifier index) is not
    part of the source unit.  It is a multimap from a key to the elements
    carrying it; the elements under one key are kept in tree order. *)
Abbreviation TreeOrderedMap := (gmap string (list nat)) (only parsing).

Record TreeScope := {
  root_node_ : ContainerNode;
  document_ : ScopePtr;
  parent_tree_scope_ : option ScopePtr;
  elements_by_id_ : option TreeOrderedMap;
  (* the keys [NotifyObservers] was called with, oldest first *)
  id_target_observer_registry_ : list AtomicString
}.

Record Element := {
  tree_scope_ : ScopePtr;
  youngest_shadow_root : option ScopePtr
}.

Record Heap := {
  scopes : ScopePtr → TreeScope;
  elements : NodePtr → Element
}.

(** *** Accessors the source calls *)

Definition IsDocumentNode (n : ContainerNode) : bool :=
  match n with DocumentNode => true | ShadowRootNode _ => false end.

Definition IsShadowRoot (n : ContainerNode) : bool :=
  match n with DocumentNode => false | ShadowRootNode _ => true end.

(** [ToShadowRoot] asserts the node type. *)
Definition ToShadowRoot (n : ContainerNode) : outcome ShadowRoot :=
  match n with DocumentNode => AssertFail | ShadowRootNode sr => Done sr end.

(** A document has no parent node and no host; a shadow root has its host. *)
Definition ParentOrShadowHostNode (n : ContainerNode) : option NodePtr :=
  match n with DocumentNode => None | ShadowRootNode sr => Some (host sr) end.

Definition RootNode (h : Heap) (s : ScopePtr) : ContainerNode :=
  root_node_ (scopes h s).

Definition ParentTreeScope (h : Heap) (s : ScopePtr) : option ScopePtr :=
  parent_tree_scope_ (scopes h s).

Definition GetDocument (h : Heap) (s : ScopePtr) : ScopePtr :=
  document_ (scopes h s).

Definition GetTreeScope (h : Heap) (e : NodePtr) : ScopePtr :=
  tree_scope_ (elements h e).

(** [ShadowRoot::OlderShadowRoot], through a [ShadowRoot*]. *)
Definition OlderShadowRoot (h : Heap) (s : ScopePtr) : outcome (option ScopePtr) :=
  sr ← ToShadowRoot (RootNode h s); Done (older_shadow_root sr).

(** Modelled from the spec: [Node::OwnerShadowHost] ([Node.h] is not part of
    the source unit): the encapsulation host of a node is the host of the
    shadow sub-tree whose scope owns it; a node that is not inside any
    encapsulated sub-tree has none. *)
Definition OwnerShadowHost (h : Heap) (e : NodePtr) : option NodePtr :=
  ParentOrShadowHostNode (RootNode h (GetTreeScope h e)).

(** Modelled from the spec: [Element::ShadowRootIfV1] ([Element.h] is not
    part of the source unit): the shadow root an element hosts, when that
    sub-tree uses the strict encapsulation mode; the legacy and the
    user-agent modes give none. *)
Definition ShadowRootIfV1 (h : Heap) (e : NodePtr) : option ScopePtr :=
  match youngest_shadow_root (elements h e) with
  | None => None
  | Some r =>
      match RootNode h r with
      | ShadowRootNode sr => if decide (type sr = Strict) then Some r else None
      | DocumentNode => None
      end
  end.

(** *** [TreeScope::OlderShadowRootOrParentTreeScope] *)

Definition OlderShadowRootOrParentTreeScope (h : Heap) (s : ScopePtr)
  : option ScopePtr :=
  match RootNode h s with
  | ShadowRootNode sr =>
      match older_shadow_root sr with
      | Some older => Some older
      | None => ParentTreeScope h s
      end
  | DocumentNode => ParentTreeScope h s
  end.

(** *** [TreeScope::IsInclusiveOlderSiblingShadowRootOrAncestorTreeScopeOf] *)

Fixpoint IsInclusiveOlderSiblingShadowRootOrAncestorTreeScopeOf
  (fuel : nat) (h : Heap) (this : ScopePtr) (current : option ScopePtr)
  : outcome bool :=
  match current with
  | None => Done false
  | Some c =>
      match fuel with
      | O => NoFuel
      | S fuel' =>
          if decide (c = this) then Done true
          else IsInclusiveOlderSiblingShadowRootOrAncestorTreeScopeOf
                 fuel' h this (OlderShadowRootOrParentTreeScope h c)
      end
  end.

(** *** [TreeScope::IsInclusiveAncestorOf] *)

Fixpoint inclusive_ancestor_loop
  (fuel : nat) (h : Heap) (this : ScopePtr) (current : option ScopePtr)
  : outcome bool :=
  match current with
  | None => Done false
  | Some c =>
      match fuel with
      | O => NoFuel
      | S fuel' =>
          if decide (c = this) then Done true
          else inclusive_ancestor_loop fuel' h this (ParentTreeScope h c)
      end
  end.

Definition IsInclusiveAncestorOf
  (fuel : nat) (h : Heap) (this scope : ScopePtr) : outcome bool :=
  inclusive_ancestor_loop fuel h this (Some scope).

(** *** [TreeScope::SetParentTreeScope] *)

Definition update_scope (s : ScopePtr) (f : TreeScope → TreeScope) (h : Heap)
  : Heap :=
  {| scopes := <[s := f (scopes h s)]> (scopes h); elements := elements h |}.

Definition set_parent_tree_scope_ (p : option ScopePtr) (ts : TreeScope)
  : TreeScope :=
  {| root_node_ := root_node_ ts;
     document_ := document_ ts;
     parent_tree_scope_ := p;
     elements_by_id_ := elements_by_id_ ts;
     id_target_observer_registry_ := id_target_observer_registry_ ts |}.

(** [TreeScope::SetDocument] (inline in [TreeScope.h]) stores the pointer. *)
Definition SetDocument (document : ScopePtr) (ts : TreeScope) : TreeScope :=
  {| root_node_ := root_node_ ts;
     document_ := document;
     parent_tree_scope_ := parent_tree_scope_ ts;
     elements_by_id_ := elements_by_id_ ts;
     id_target_observer_registry_ := id_target_observer_registry_ ts |}.

Definition SetParentTreeScope (h : Heap) (this new_parent_scope : ScopePtr)
  : outcome Heap :=
  (* A document node cannot be re-parented. *)
  if IsDocumentNode (RootNode h this) then AssertFail
  else
    let h1 := update_scope this
                (set_parent_tree_scope_ (Some new_parent_scope)) h in
    Done (update_scope this (SetDocument (GetDocument h1 new_parent_scope)) h1).

(** *** The ancestor chains built by [ComparePosition] and
        [CommonAncestorTreeScope] *)

(** [for (current = s; current; current = current->ParentTreeScope())
      chain.push_back(current);] *)
Fixpoint ancestor_chain (fuel : nat) (h : Heap) (current : option ScopePtr)
  : outcome (list ScopePtr) :=
  match current with
  | None => Done []
  | Some c =>
      match fuel with
      | O => NoFuel
      | S fuel' =>
          chain ← ancestor_chain fuel' h (ParentTreeScope h c);
          Done (c :: chain)
      end
  end.

(** [chain[i]] on a [Vector]: an index out of range fails its check. *)
Definition at_index (chain : list ScopePtr) (i : nat) : outcome ScopePtr :=
  match chain !! i with
  | Some s => Done s
  | None => AssertFail
  end.

(** *** [TreeScope::ComparePosition] *)

Section Navigation.

(** [Node::compareDocumentPosition] with [kTreatShadowTreesAsDisconnected],
    which orders two hosts that live in a common scope; the second node is
    passed as a nullable pointer. *)
Variable compareDocumentPosition : NodePtr → option NodePtr → Z.

(** The inner loop over the older shadow roots of [child2]:
    [for (child = ...OlderShadowRoot(); child; child = child->OlderShadowRoot())
       if (child == child1) return kDocumentPositionFollowing;] *)
Fixpoint older_shadow_root_loop
  (fuel : nat) (h : Heap) (child1 : ScopePtr) (child : option ScopePtr)
  : outcome bool :=
  match child with
  | None => Done false
  | Some c =>
      match fuel with
      | O => NoFuel
      | S fuel' =>
          if decide (c = child1) then Done true
          else
            older ← OlderShadowRoot h c;
            older_shadow_root_loop fuel' h child1 older
      end
  end.

(** What happens at the first pair of chain entries that differ. *)
Definition compare_children (fuel : nat) (h : Heap) (child1 child2 : ScopePtr)
  : outcome Z :=
  let shadow_host1 := ParentOrShadowHostNode (RootNode h child1) in
  let shadow_host2 := ParentOrShadowHostNode (RootNode h child2) in
  if decide (shadow_host1 ≠ shadow_host2) then
    match shadow_host1 with
    | Some n1 => Done (compareDocumentPosition n1 shadow_host2)
    | None => AssertFail
    end
  else
    older ← OlderShadowRoot h child2;
    found ← older_shadow_root_loop fuel h child1 older;
    Done (if found : bool then kDocumentPositionFollowing
          else kDocumentPositionPreceding).

(** [for (unsigned i = std::min(index1, index2); i; --i)] and the return
    after it. *)
Fixpoint compare_loop
  (fuel : nat) (h : Heap) (chain1 chain2 : list ScopePtr)
  (i index1 index2 : nat) : outcome Z :=
  match i with
  | O =>
      (* There was no difference between the two parent chains, i.e., one
         was a subset of the other. The shorter chain is the ancestor. *)
      Done (if decide (index1 < index2)%nat
            then Z.lor kDocumentPositionFollowing kDocumentPositionContainedBy
            else Z.lor kDocumentPositionPreceding kDocumentPositionContains)
  | S i' =>
      let index1 := (index1 - 1)%nat in
      let index2 := (index2 - 1)%nat in
      child1 ← at_index chain1 index1;
      child2 ← at_index chain2 index2;
      if decide (child1 ≠ child2) then compare_children fuel h child1 child2
      else compare_loop fuel h chain1 chain2 i' index1 index2
  end.

Definition ComparePosition (fuel : nat) (h : Heap) (this other_scope : ScopePtr)
  : outcome Z :=
  if decide (other_scope = this) then Done kDocumentPositionEquivalent
  else
    chain1 ← ancestor_chain fuel h (Some this);
    chain2 ← ancestor_chain fuel h (Some other_scope);
    let index1 := length chain1 in
    let index2 := length chain2 in
    top1 ← at_index chain1 (index1 - 1);
    top2 ← at_index chain2 (index2 - 1);
    if decide (top1 ≠ top2) then
      Done (Z.lor kDocumentPositionDisconnected
                  kDocumentPositionImplementationSpecific)
    else
      compare_loop fuel h chain1 chain2 (index1 `min` index2) index1 index2.

End Navigation.

(** *** [TreeScope::CommonAncestorTreeScope] *)

(** Vector operations used on the chains: [back()] reads the last entry
    (none on an empty vector), [pop_back()] drops it. *)
Definition back (chain : list ScopePtr) : option ScopePtr :=
  list.last chain.

Definition pop_back (chain : list ScopePtr) : list ScopePtr :=
  take (length chain - 1) chain.

(** [while (!this_chain.IsEmpty() && !other_chain.IsEmpty() &&
           this_chain.back() == other_chain.back())] *)
Fixpoint pop_matching
  (fuel : nat) (this_chain other_chain : list ScopePtr)
  (last_ancestor : option ScopePtr) : outcome (option ScopePtr) :=
  match back this_chain, back other_chain with
  | Some a, Some b =>
      if decide (a = b) then
        match fuel with
        | O => NoFuel
        | S fuel' =>
            pop_matching fuel' (pop_back this_chain) (pop_back other_chain)
              (Some a)
        end
      else Done last_ancestor
  | _, _ => Done last_ancestor
  end.

Definition CommonAncestorTreeScope
  (fuel : nat) (h : Heap) (this other : ScopePtr) : outcome (option ScopePtr) :=
  this_chain ← ancestor_chain fuel h (Some this);
  other_chain ← ancestor_chain fuel h (Some other);
  (* Keep popping out the last elements of these chains until a mismatched
     pair is found. If |this| and |other| belong to different documents,
     null will be returned. *)
  pop_matching fuel this_chain other_chain None.

(** *** [TreeScope::AncestorInThisScope] *)

Fixpoint AncestorInThisScope
  (fuel : nat) (h : Heap) (this : ScopePtr) (node : option NodePtr)
  : outcome (option NodePtr) :=
  match node with
  | None => Done None
  | Some n =>
      match fuel with
      | O => NoFuel
      | S fuel' =>
          if decide (GetTreeScope h n = this) then Done (Some n)
          else if negb (IsShadowRoot (RootNode h (GetTreeScope h n)))
               then Done None
               else AncestorInThisScope fuel' h this (OwnerShadowHost h n)
      end
  end.

(** *** [TreeScope::Retarget] *)

Fixpoint retarget_loop
  (fuel : nat) (h : Heap) (this : ScopePtr) (ancestor : option NodePtr)
  : outcome (option NodePtr) :=
  match ancestor with
  | None => Done None
  | Some a =>
      match fuel with
      | O => NoFuel
      | S fuel' =>
          if decide (this = GetTreeScope h a) then Done (Some a)
          else retarget_loop fuel' h this (OwnerShadowHost h a)
      end
  end.

Definition Retarget (fuel : nat) (h : Heap) (this : ScopePtr) (target : NodePtr)
  : outcome (option NodePtr) :=
  retarget_loop fuel h this (Some target).

(** *** [TreeScope::AdjustedElement] *)

Fixpoint adjusted_loop
  (fuel : nat) (h : Heap) (this : ScopePtr)
  (adjusted_target : NodePtr) (ancestor : option NodePtr)
  : outcome (option NodePtr) :=
  match ancestor with
  | None => Done None
  | Some a =>
      match fuel with
      | O => NoFuel
      | S fuel' =>
          (* This adjustment is done only for V1 shadows, and is skipped
             for V0 or UA shadows. *)
          let adjusted_target :=
            match ShadowRootIfV1 h a with
            | Some _ => a
            | None => adjusted_target
            end in
          if decide (this = GetTreeScope h a) then Done (Some adjusted_target)
          else adjusted_loop fuel' h this adjusted_target (OwnerShadowHost h a)
      end
  end.

Definition AdjustedElement
  (fuel : nat) (h : Heap) (this : ScopePtr) (target : NodePtr)
  : outcome (option NodePtr) :=
  adjusted_loop fuel h this target (Some target).

(** *** Well-formed chains

    The spec's invariant that parent links never form a cycle and end at a
    document: the scope has a finite chain of parent links, the scope
    itself first and its document scope last. *)
Inductive AncestorChain (h : Heap) : ScopePtr → list ScopePtr → Prop :=
| chain_document s :
    ParentTreeScope h s = None → AncestorChain h s [s]
| chain_parent s p chain :
    ParentTreeScope h s = Some p → AncestorChain h p chain →
    AncestorChain h s (s :: chain).

(** The stack of shadow roots reached from a (nullable) shadow root by
    following [OlderShadowRoot] links. *)
Inductive OlderStack (h : Heap) : option ScopePtr → list ScopePtr → Prop :=
| older_end : OlderStack h None []
| older_next s sr stack :
    RootNode h s = ShadowRootNode sr →
    OlderStack h (older_shadow_root sr) stack →
    OlderStack h (Some s) (s :: stack).

(** The chain of encapsulation hosts of a (nullable) element: self, host
    of self, host of host, and so on. *)
Inductive HostChain (h : Heap) : option NodePtr → list NodePtr → Prop :=
| hosts_end : HostChain h None []
| hosts_next e chain :
    HostChain h (OwnerShadowHost h e) chain →
    HostChain h (Some e) (e :: chain).

(** Whether an element of a host chain belongs to the scope [this]. *)
Definition in_this_scope (h : Heap) (this : ScopePtr) (a : NodePtr) : bool :=
  bool_decide (GetTreeScope h a = this).

(** Whether an element hosts a strictly-encapsulated shadow sub-tree. *)
Definition is_strict_host (h : Heap) (a : NodePtr) : bool :=
  bool_decide (is_Some (ShadowRootIfV1 h a)).

(** The closest strict host among the elements [passed] on a walk up the
    host chain (the one passed last), or [target] when there is none. *)
Definition remembered (h : Heap) (target : NodePtr) (passed : list NodePtr)
  : NodePtr :=
  default target (list.last (List.filter (is_strict_host h) passed)).

(** *** The identifier index of a scope *)

Section IdentifierIndex.

(** The position of an element in the tree order of its scope. *)
Variable tree_position : NodePtr → nat.

(** Modelled from the spec: the operations of [TreeOrderedMap], which is
    not part of the source unit.  [Add] inserts an occurrence, keeping the
    elements under a key in tree order; [Remove] removes one occurrence and
    does nothing when the element is not present; [GetElementById] returns
    the tree-order-first element under the key; [GetAllElementsById]
    returns all of them in tree order. *)
Definition TreeOrderedMap_Create : TreeOrderedMap := ∅.

Fixpoint insert_in_tree_order (element : NodePtr) (l : list NodePtr)
  : list NodePtr :=
  match l with
  | [] => [element]
  | x :: l' =>
      if decide (tree_position element ≤ tree_position x)%nat
      then element :: l
      else x :: insert_in_tree_order element l'
  end.

Fixpoint remove_one (element : NodePtr) (l : list NodePtr) : list NodePtr :=
  match l with
  | [] => []
  | x :: l' => if decide (x = element) then l' else x :: remove_one element l'
  end.

Definition TreeOrderedMap_Add
  (key : AtomicString) (element : NodePtr) (m : TreeOrderedMap)
  : TreeOrderedMap :=
  <[key := insert_in_tree_order element (default [] (m !! key))]> m.

Definition TreeOrderedMap_Remove
  (key : AtomicString) (element : NodePtr) (m : TreeOrderedMap)
  : TreeOrderedMap :=
  match m !! key with
  | None => m
  | Some l =>
      match remove_one element l with
      | [] => delete key m
      | l' => <[key := l']> m
      end
  end.

Definition TreeOrderedMap_GetElementById
  (key : AtomicString) (m : TreeOrderedMap) : option NodePtr :=
  match m !! key with
  | None => None
  | Some l => head l
  end.

Definition TreeOrderedMap_GetAllElementsById
  (key : AtomicString) (m : TreeOrderedMap) : list NodePtr :=
  default [] (m !! key).

(** [AtomicString::IsEmpty]: the null and the empty string. *)
Definition IsEmpty (s : AtomicString) : bool := bool_decide (s = "").

(** [IdTargetObserverRegistry::NotifyObservers], recorded as a log. *)
Definition NotifyObservers (key : AtomicString) (registry : list AtomicString)
  : list AtomicString :=
  registry ++ [key].

(** [TreeScope::getElementById] *)
Definition getElementById (element_id : AtomicString) (this : TreeScope)
  : option NodePtr :=
  if IsEmpty element_id then None
  else
    match elements_by_id_ this with
    | None => None
    | Some m => TreeOrderedMap_GetElementById element_id m
    end.

(** [TreeScope::GetAllElementsById] *)
Definition GetAllElementsById (element_id : AtomicString) (this : TreeScope)
  : list NodePtr :=
  if IsEmpty element_id then []
  else
    match elements_by_id_ this with
    | None => []
    | Some m => TreeOrderedMap_GetAllElementsById element_id m
    end.

(** [TreeScope::AddElementById] *)
Definition AddElementById
  (element_id : AtomicString) (element : NodePtr) (this : TreeScope)
  : TreeScope :=
  let m := match elements_by_id_ this with
           | None => TreeOrderedMap_Create
           | Some m => m
           end in
  {| root_node_ := root_node_ this;
     document_ := document_ this;
     parent_tree_scope_ := parent_tree_scope_ this;
     elements_by_id_ := Some (TreeOrderedMap_Add element_id element m);
     id_target_observer_registry_ :=
       NotifyObservers element_id (id_target_observer_registry_ this) |}.

(** [TreeScope::RemoveElementById] *)
Definition RemoveElementById
  (element_id : AtomicString) (element : NodePtr) (this : TreeScope)
  : TreeScope :=
  match elements_by_id_ this with
  | None => this
  | Some m =>
      {| root_node_ := root_node_ this;
         document_ := document_ this;
         parent_tree_scope_ := parent_tree_scope_ this;
         elements_by_id_ := Some (TreeOrderedMap_Remove element_id element m);
         id_target_observer_registry_ :=
           NotifyObservers element_id (id_target_observer_registry_ this) |}
  end.

(** The calls on the identifier index of a scope, and the scope a call
    leaves behind.  [getElementById] and [GetAllElementsById] are [const]
    member functions. *)
Inductive IndexCall :=
| CallGet (key : AtomicString)
| CallGetAll (key : AtomicString)
| CallAdd (key : AtomicString) (element : NodePtr)
| CallRemove (key : AtomicString) (element : NodePtr).

Definition scope_after (c : IndexCall) (this : TreeScope) : TreeScope :=
  match c with
  | CallGet _ | CallGetAll _ => this
  | CallAdd key element => AddElementById key element this
  | CallRemove key element => RemoveElementById key element this
  end.

(** The scopes the index operations can produce from a scope as its
    constructor leaves it (no index yet). *)
Inductive index_reachable : TreeScope → Prop :=
| reach_new this :
    elements_by_id_ this = None → index_reachable this
| reach_add key element this :
    index_reachable this → index_reachable (AddElementById key element this)
| reach_remove key element this :
    index_reachable this → index_reachable (RemoveElementById key element this).

(** Modelled from the spec: the callers of [AddElementById] and
    [RemoveElementById] (the tree-mutation code, which is not part of the
    source unit) never index the empty-string key.  These are the scopes
    they can produce. *)
Inductive indexed_by_callers : TreeScope → Prop :=
| callers_new this :
    elements_by_id_ this = None → indexed_by_callers this
| callers_add key element this :
    key ≠ "" → indexed_by_callers this →
    indexed_by_callers (AddElementById key element this)
| callers_remove key element this :
    key ≠ "" → indexed_by_callers this →
    indexed_by_callers (RemoveElementById key element this).

(** The elements the index of a scope holds under a key. *)
Definition carriers (key : AtomicString) (this : TreeScope) : list NodePtr :=
  match elements_by_id_ this with
  | None => []
  | Some m => default [] (m !! key)
  end.

(** The elements under every key of the index are in tree order. *)
Definition tree_ordered (l : list NodePtr) : Prop :=
  StronglySorted (λ a b, tree_position a ≤ tree_position b)%nat l.

Definition index_ordered (this : TreeScope) : Prop :=
  ∀ m key l,
    elements_by_id_ this = Some m → m !! key = Some l → tree_ordered l.

Definition is_add_call (c : IndexCall) : bool :=
  match c with CallAdd _ _ => true | _ => false end.

End IdentifierIndex.

(** *** Sequences of calls on the identifier index *)

Definition call_key (c : IndexCall) : AtomicString :=
  match c with
  | CallGet key | CallGetAll key | CallAdd key _ | CallRemove key _ => key
  end.

Definition is_remove_call (c : IndexCall) : bool :=
  match c with CallRemove _ _ => true | _ => false end.

(** The calls that change the index: adds and removes. *)
Definition is_mutation (c : IndexCall) : bool :=
  is_add_call c || is_remove_call c.

(** The scope after a sequence of calls, first call first. *)
Definition scope_after_calls
  (tree_position : NodePtr → nat) (calls : list IndexCall) (this : TreeScope)
  : TreeScope :=
  fold_left (λ scope c, scope_after tree_position c scope) calls this.

(** *** The walk of [IsInclusiveOlderSiblingShadowRootOrAncestorTreeScopeOf] *)

(** The scopes reached from a (nullable) scope by following
    [OlderShadowRootOrParentTreeScope]. *)
Inductive OlderOrParentWalk (h : Heap) : option ScopePtr → list ScopePtr → Prop :=
| walk_end : OlderOrParentWalk h None []
| walk_next s walk :
    OlderOrParentWalk h (OlderShadowRootOrParentTreeScope h s) walk →
    OlderOrParentWalk h (Some s) (s :: walk).

(** *** The constructors *)





(** The heap [SetParentTreeScope] leaves behind when it returns. *)
Definition reparented (h : Heap) (this new_parent_scope : ScopePtr) : Heap :=
  let h1 := update_scope this
              (set_parent_tree_scope_ (Some new_parent_scope)) h in
  update_scope this (SetDocument (GetDocument h1 new_parent_scope)) h1.



(** Every scope that has a parent is rooted at a shadow root whose stack
    of older shadow roots is finite (at most [bound] long). *)
Definition shadow_stacks_bounded (bound : nat) (h : Heap) : Prop :=
  ∀ s p, ParentTreeScope h s = Some p →
    ∃ sr stack,
      RootNode h s = ShadowRootNode sr
      ∧ OlderStack h (older_shadow_root sr) stack
      ∧ (length stack ≤ bound)%nat.

(** The shadow roots stacked on one host have the same parent scope. *)
Definition generations_share_parent (h : Heap) : Prop :=
  ∀ s sr older,
    RootNode h s = ShadowRootNode sr → older_shadow_root sr = Some older →
    ParentTreeScope h older = ParentTreeScope h s.

(** Every node has a finite chain of encapsulation hosts (at most [bound]
    long). *)
Definition host_chains_bounded (bound : nat) (h : Heap) : Prop :=
  ∀ n, ∃ chain, HostChain h (Some n) chain ∧ (length chain ≤ bound)%nat.

(** *** [TreeScope::AdjustedFocusedElement] *)

(** A node of an event path: an element, or the root node of a scope. *)
Inductive PathNode :=
| ElementInPath (e : NodePtr)
| RootInPath (s : ScopePtr).

Global Instance PathNode_eq_dec : EqDecision PathNode.
Proof. solve_decision. Defined.

(** A [NodeEventContext]: the node and the target seen from it. *)
Record NodeEventContext := {
  context_node : PathNode;
  context_target : NodePtr
}.

(** Modelled from the spec: [Node::IsInV1ShadowTree] on the root node of a
    scope ([Node.h] is not part of the source unit): the scope is a
    strictly-encapsulated shadow sub-tree. *)
Definition IsInV1ShadowTree (n : ContainerNode) : bool :=
  match n with
  | ShadowRootNode sr => bool_decide (type sr = Strict)
  | DocumentNode => false
  end.

Section Focus.

(** The focus state of a document and of its page, and the event path of
    an element: collaborators outside the source unit. *)
Variable FocusedElement : ScopePtr → option NodePtr.
Variable GetPage : ScopePtr → bool.
Variable FocusedFrameOwnerElement : ScopePtr → option NodePtr.
Variable NodeEventContexts : NodePtr → list NodeEventContext.

Definition focused_or_frame_owner (document : ScopePtr) : option NodePtr :=
  match FocusedElement document with
  | Some element => Some element
  | None =>
      if GetPage document then FocusedFrameOwnerElement document else None
  end.

Definition AdjustedFocusedElement (fuel : nat) (h : Heap) (this : ScopePtr)
  : outcome (option NodePtr) :=
  let document := GetDocument h this in
  match focused_or_frame_owner document with
  | None => Done None
  | Some element =>
      if IsInV1ShadowTree (RootNode h this) then
        retargeted ← Retarget fuel h this element;
        match retargeted with
        | Some r =>
            Done (if decide (this = GetTreeScope h r) then Some r else None)
        | None => Done None
        end
      else
        Done (context_target
                <$> head (List.filter
                            (λ context,
                               bool_decide (context_node context = RootInPath this))
                            (NodeEventContexts element)))
  end.

End Focus.

(** *** [TreeScope::HitTestPoint] and [TreeScope::ElementsFromHitTestResult] *)

Section HitTesting.

(** The type tests of [Node], the parent-or-host link of a node, the hit
    test of a document, and the document element: collaborators outside
    the source unit. *)
Variable is_element_node : NodePtr → bool.
Variable is_pseudo_element : NodePtr → bool.
Variable is_text_node : NodePtr → bool.
Variable is_document_node : NodePtr → bool.
Variable is_shadow_root_node : NodePtr → bool.
Variable parent_or_shadow_host_node : NodePtr → option NodePtr.
Variable HitTestInDocument_InnerNode : ScopePtr → Z → Z → option NodePtr.
Variable documentElement : ScopePtr → option NodePtr.

Definition HitTestPoint
  (fuel : nat) (h : Heap) (this : ScopePtr) (x y : Z)
  : outcome (option NodePtr) :=
  match HitTestInDocument_InnerNode (GetDocument h this) x y with
  | None => Done None
  | Some node =>
      if is_document_node node then Done None
      else
        let node :=
          if is_pseudo_element node || is_text_node node
          then parent_or_shadow_host_node node else Some node in
        if match node with
           | None => true
           | Some n => is_element_node n || is_shadow_root_node n
           end
        then
          node ← AncestorInThisScope fuel h this node;
          match node with
          | Some n => Done (if is_element_node n then Some n else None)
          | None => Done None
          end
        else AssertFail
  end.

(** The loop over [result.ListBasedTestResult()]. *)
Fixpoint hit_test_result_loop
  (fuel : nat) (h : Heap) (this : ScopePtr)
  (nodes : list (option NodePtr))
  (elements : list NodePtr) (last_node : option NodePtr)
  : outcome (list NodePtr * option NodePtr) :=
  match nodes with
  | [] => Done (elements, last_node)
  | rect_based_node :: nodes' =>
      match rect_based_node with
      | None => hit_test_result_loop fuel h this nodes' elements last_node
      | Some node =>
          if negb (is_element_node node) || is_document_node node
          then hit_test_result_loop fuel h this nodes' elements last_node
          else
            let node :=
              if is_pseudo_element node || is_text_node node
              then parent_or_shadow_host_node node else Some node in
            node ← AncestorInThisScope fuel h this node;
            (* Prune duplicate entries. *)
            if decide (node = last_node)
            then hit_test_result_loop fuel h this nodes' elements last_node
            else
              match node with
              | Some n =>
                  if is_element_node n
                  then hit_test_result_loop fuel h this nodes'
                         (elements ++ [n]) (Some n)
                  else hit_test_result_loop fuel h this nodes' elements last_node
              | None =>
                  hit_test_result_loop fuel h this nodes' elements last_node
              end
      end
  end.

Definition ElementsFromHitTestResult
  (fuel : nat) (h : Heap) (this : ScopePtr) (result : list (option NodePtr))
  : outcome (list NodePtr) :=
  '(elements, _) ← hit_test_result_loop fuel h this result [] None;
  if IsDocumentNode (RootNode h this) then
    match documentElement this with
    | Some root_element =>
        if bool_decide (elements = [])
           || bool_decide (list.last elements ≠ Some root_element)
        then Done (elements ++ [root_element])
        else Done elements
    | None => Done elements
    end
  else Done elements.

End HitTesting.

(** An element node that belongs to the scope [this]. *)
Definition element_of_this_scope
  (is_element_node : NodePtr → bool) (h : Heap) (this : ScopePtr) (n : NodePtr)
  : Prop :=
  GetTreeScope h n = this ∧ is_element_node n = true.

(** No entry of the vector is followed by the same entry. *)
Definition no_adjacent_duplicates (l : list NodePtr) : Prop :=
  ∀ l1 x l2, l ≠ l1 ++ x :: x :: l2.

(** *** [TreeScope::GetImageMap] *)

(** [String::find(char)]: the position of the first occurrence, none for
    [kNotFound]. *)
Fixpoint find_char (c : Ascii.ascii) (s : string) : option nat :=
  match s with
  | EmptyString => None
  | String a s' =>
      if decide (a = c) then Some 0%nat else S <$> find_char c s'
  end.

(** [String::Substring(pos)]: the rest of the string from [pos] on. *)
Fixpoint Substring (pos : nat) (s : string) : string :=
  match pos, s with
  | O, _ => s
  | S pos', String _ s' => Substring pos' s'
  | S _, EmptyString => EmptyString
  end.

(** The name looked up for a [usemap] URL. *)
Definition image_map_name (url : string) : string :=
  match find_char "#"%char url with
  | None => url
  | Some hash_pos => Substring (hash_pos + 1) url
  end.

(** [image_maps_by_name_] is passed in: it is a lazily created map like
    [elements_by_id_]; a null [String] is none.  Modelled from the spec:
    [TreeOrderedMap::GetElementByMapName] returns the tree-order-first
    element under the name. *)
Definition GetImageMap
  (image_maps_by_name_ : option TreeOrderedMap) (url : option string)
  : option NodePtr :=
  match url with
  | None => None
  | Some url =>
      match image_maps_by_name_ with
      | None => None
      | Some m => TreeOrderedMap_GetElementById (image_map_name url) m
      end
  end.

End Forest.

(** ** The element tree of a scope and the access-key scan *)

Module Scan.

(** An element with its [accesskey] attribute (none when absent), the
    stack of shadow roots it hosts (youngest first, each followed by its
    older shadow root) and its child elements in document order.  A shadow
    root is a tree scope; the children of a scope's root node are the
    top-level elements of its sub-tree. *)
#[local] Unset Elimination Schemes.
Inductive Element :=
| mkElement (id : nat) (accesskey : option string)
            (shadow_roots : list TreeScope) (children : list Element)
with TreeScope :=
| mkTreeScope (root_children : list Element).
#[local] Set Elimination Schemes.

(** Induction over an element tree with the shadow trees nested in it. *)
Section TreeInduction.

Variables (P : Element → Prop) (Q : TreeScope → Prop).
Hypothesis element_case :
  ∀ id a srs cs, Forall Q srs → Forall P cs → P (mkElement id a srs cs).
Hypothesis scope_case :
  ∀ cs, Forall P cs → Q (mkTreeScope cs).

Fixpoint Element_tree_ind (e : Element) : P e :=
  match e with
  | mkElement id a srs cs =>
      element_case id a srs cs
        ((fix scopes_ind (l : list TreeScope) : Forall Q l :=
            match l with
            | [] => @Forall_nil _ Q
            | s :: l' =>
                @Forall_cons _ Q s l' (TreeScope_tree_ind s) (scopes_ind l')
            end) srs)
        ((fix elements_ind (l : list Element) : Forall P l :=
            match l with
            | [] => @Forall_nil _ P
            | c :: l' =>
                @Forall_cons _ P c l' (Element_tree_ind c) (elements_ind l')
            end) cs)
  end
with TreeScope_tree_ind (s : TreeScope) : Q s :=
  match s with
  | mkTreeScope cs =>
      scope_case cs
        ((fix elements_ind (l : list Element) : Forall P l :=
            match l with
            | [] => @Forall_nil _ P
            | c :: l' =>
                @Forall_cons _ P c l' (Element_tree_ind c) (elements_ind l')
            end) cs)
  end.

End TreeInduction.

Definition FastGetAttribute_accesskey (e : Element) : option string :=
  match e with mkElement _ a _ _ => a end.

(** [YoungestShadowRoot()] and the [OlderShadowRoot()] links after it. *)
Definition shadow_root_stack (e : Element) : list TreeScope :=
  match e with mkElement _ _ srs _ => srs end.

Definition child_elements (e : Element) : list Element :=
  match e with mkElement _ _ _ cs => cs end.

Definition root_elements (s : TreeScope) : list Element :=
  match s with mkTreeScope cs => cs end.

(** [ElementTraversal::DescendantsOf(root)]: the elements below the root
    node, in document (pre-) order; the traversal stays in the scope. *)
Fixpoint inclusive_descendants (e : Element) : list Element :=
  match e with
  | mkElement _ _ _ cs => e :: flat_map inclusive_descendants cs
  end.

Definition DescendantsOf (s : TreeScope) : list Element :=
  flat_map inclusive_descendants (root_elements s).

Section AccessKey.

(** [DeprecatedEqualIgnoringCase] of an attribute value, which may be
    null, and the key. *)
Variable DeprecatedEqualIgnoringCase : option string → string → bool.

(** [TreeScope::GetElementByAccessKey].  The range-for over
    [DescendantsOf(root)] is written as a recursion over the child lists:
    [scan_element result e] runs the loop body on [e] and then on the
    descendants of [e], in document order. *)
Fixpoint scan_element (key : string) (result : option Element) (element : Element)
  {struct element} : option Element :=
  match element with
  | mkElement _ a srs cs =>
      let result :=
        if DeprecatedEqualIgnoringCase a key then Some element else result in
      let result :=
        fold_left
          (λ result shadow_root,
             match GetElementByAccessKey key shadow_root with
             | Some shadow_result => Some shadow_result
             | None => result
             end)
          srs result in
      fold_left (scan_element key) cs result
  end
with GetElementByAccessKey (key : string) (this : TreeScope) {struct this}
  : option Element :=
  if bool_decide (key = "") then None
  else
    match this with
    | mkTreeScope cs => fold_left (scan_element key) cs None
    end.

(** The body of the loop in the source, for one element of the traversal. *)
Definition loop_body (key : string) (result : option Element) (element : Element)
  : option Element :=
  let result :=
    if DeprecatedEqualIgnoringCase (FastGetAttribute_accesskey element) key
    then Some element else result in
  fold_left
    (λ result shadow_root,
       match GetElementByAccessKey key shadow_root with
       | Some shadow_result => Some shadow_result
       | None => result
       end)
    (shadow_root_stack element) result.

(** The visiting order the spec describes: an element, then the sub-trees
    of the shadow generations it hosts, newest to oldest, then the rest of
    the outer scan. *)
Fixpoint visit_element (e : Element) : list Element :=
  match e with
  | mkElement _ _ srs cs =>
      e :: flat_map visit_scope srs ++ flat_map visit_element cs
  end
with visit_scope (s : TreeScope) : list Element :=
  match s with
  | mkTreeScope cs => flat_map visit_element cs
  end.

Definition matches (key : string) (e : Element) : bool :=
  DeprecatedEqualIgnoringCase (FastGetAttribute_accesskey e) key.

Definition last_match (key : string) (s : TreeScope) : option Element :=
  list.last (List.filter (matches key) (visit_scope s)).

(** A later match replaces the result so far. *)
Definition override (result found : option Element) : option Element :=
  match found with
  | Some e => Some e
  | None => result
  end.

End AccessKey.

End Scan.

(** ** Sample forests *)

Module Samples.

Import Forest.

Definition document_scope (self : ScopePtr) : TreeScope :=
  {| root_node_ := DocumentNode;
     document_ := self;
     parent_tree_scope_ := None;
     elements_by_id_ := None;
     id_target_observer_registry_ := [] |}.

Definition shadow_scope
  (host_element : NodePtr) (older : option ScopePtr) (t : ShadowRootType)
  (parent document : ScopePtr) : TreeScope :=
  {| root_node_ :=
       ShadowRootNode
         {| host := host_element; older_shadow_root := older; type := t |};
     document_ := document;
     parent_tree_scope_ := Some parent;
     elements_by_id_ := None;
     id_target_observer_registry_ := [] |}.

(** Document 0 holds element 10, which hosts two shadow generations: scope
    1 (the older one) and scope 2 (the younger one).  Element 11 lives in
    scope 1 and hosts the legacy shadow root of scope 3, which holds
    element 12.  Element 13 lives in scope 2.  Scope 4 is a second
    document; element 14 lives in it. *)
Definition forest : Heap :=
  {| scopes := λ s,
       match s with
       | 1%nat => shadow_scope 10 None Strict 0 0
       | 2%nat => shadow_scope 10 (Some 1%nat) Strict 0 0
       | 3%nat => shadow_scope 11 None Legacy 1 0
       | 4%nat => document_scope 4
       | _ => document_scope 0
       end;
     elements := λ e,
       match e with
       | 10%nat => {| tree_scope_ := 0; youngest_shadow_root := Some 2%nat |}
       | 11%nat => {| tree_scope_ := 1; youngest_shadow_root := Some 3%nat |}
       | 12%nat => {| tree_scope_ := 3; youngest_shadow_root := None |}
       | 13%nat => {| tree_scope_ := 2; youngest_shadow_root := None |}
       | 14%nat => {| tree_scope_ := 4; youngest_shadow_root := None |}
       | _ => {| tree_scope_ := 0; youngest_shadow_root := None |}
       end |}.

(** An order on hosts for [compareDocumentPosition]; the samples never
    reach it. *)
Definition no_order (a : NodePtr) (b : option NodePtr) : Z :=
  kDocumentPositionDisconnected.

(** Pointers taken as tree positions. *)
Definition by_pointer (e : NodePtr) : nat := e.

(** A scope whose index holds the elements 3 and 5 under the key x,
    added out of tree order. *)
Definition indexed_scope : TreeScope :=
  AddElementById by_pointer "x" 3
    (AddElementById by_pointer "x" 5 (document_scope 0)).

(** The forest with one more shadow root, scope 5, hosted by element 15
    of the document. *)
Definition forest_with_sibling : Heap :=
  update_scope 5 (λ _, shadow_scope 15 None Strict 0 0) forest.

(** Hosts ordered by their pointers, for [compareDocumentPosition]. *)
Definition host_order (a : NodePtr) (b : option NodePtr) : Z :=
  match b with
  | Some b' =>
      if (a <? b')%nat then kDocumentPositionFollowing
      else kDocumentPositionPreceding
  | None => kDocumentPositionDisconnected
  end.

(** Element 13, in the strict shadow root of scope 2, has the focus of
    document 0; no page, no event path. *)
Definition focus_on_13 (document : ScopePtr) : option NodePtr :=
  match document with 0%nat => Some 13%nat | _ => None end.
Definition no_page (document : ScopePtr) : bool := false.
Definition no_frame_owner (document : ScopePtr) : option NodePtr := None.
Definition no_event_path (e : NodePtr) : list NodeEventContext := [].

(** Hit testing: every node is an element node, the hit test of a
    document hits element 12, and element 10 is the document element of
    document 0. *)
Definition every_node (n : NodePtr) : bool := true.
Definition no_node (n : NodePtr) : bool := false.
Definition no_parent (n : NodePtr) : option NodePtr := None.
Definition hit_12 (document : ScopePtr) (x y : Z) : option NodePtr :=
  Some 12%nat.
Definition document_element_10 (s : ScopePtr) : option NodePtr :=
  match s with 0%nat => Some 10%nat | _ => None end.

(** A scope with the image map 7 under the name m. *)
Definition image_maps : option (gmap string (list nat)) :=
  Some (TreeOrderedMap_Add by_pointer "m" 7 TreeOrderedMap_Create).

End Samples.

(** A tree for the access-key scan: element 1 (key a) has the children 4
    (key a) and 5; it hosts two shadow roots, the younger with element 2
    (key a), the older with element 3 (key b). *)
Module ScanSamples.

Import Scan.

Definition e2 : Element := mkElement 2 (Some "a") [] [].
Definition e3 : Element := mkElement 3 (Some "b") [] [].
Definition e4 : Element := mkElement 4 (Some "a") [] [].
Definition e5 : Element := mkElement 5 None [] [].
Definition e1 : Element :=
  mkElement 1 (Some "a") [mkTreeScope [e2]; mkTreeScope [e3]] [e4; e5].
Definition document : TreeScope := mkTreeScope [e1].

(** The same tree without the shadow roots. *)
Definition plain_document : TreeScope :=
  mkTreeScope [mkElement 1 (Some "a") [] [e4; e5]].

(** Exact comparison, for keys that are already in one case. *)
Definition same_text (a : option string) (key : string) : bool :=
  bool_decide (a = Some key).

End ScanSamples.

(** * Properties *)

Import Forest.

(** ** Host chains: [Retarget] and [AdjustedElement] *)

Section Retargeting.

Context (h : Heap) (this : ScopePtr).

#[local] Abbreviation in_this_scope := (in_this_scope h this).
#[local] Abbreviation is_strict_host := (is_strict_host h).
#[local] Abbreviation remembered := (remembered h).

Lemma retarget_loop_spec fuel start chain :
  HostChain h start chain → (length chain ≤ fuel)%nat →
  retarget_loop fuel h this start = Done (head (List.filter in_this_scope chain)).
Proof.
  intros Hc. revert fuel. induction Hc as [|e chain Hc IH]; intros fuel Hf.
  - by destruct fuel.
  - destruct fuel as [|fuel]; [simpl in Hf; lia|]. simpl in *.
    unfold in_this_scope at 1. case_decide as Hs.
    + rewrite bool_decide_eq_true_2 by done. reflexivity.
    + rewrite bool_decide_eq_false_2 by done. apply IH. lia.
Qed.

Lemma filter_none_in_scope chain :
  Forall (λ a, GetTreeScope h a ≠ this) chain →
  List.filter in_this_scope chain = [].
Proof.
  induction 1 as [|a l Ha _ IH]; [done|]. simpl.
  unfold in_this_scope at 1. by rewrite bool_decide_eq_false_2.
Qed.

Lemma filter_first_in_scope passed m rest :
  Forall (λ a, GetTreeScope h a ≠ this) passed → GetTreeScope h m = this →
  head (List.filter in_this_scope (passed ++ m :: rest)) = Some m.
Proof.
  intros Hp Hm. rewrite List.filter_app, filter_none_in_scope by done. simpl.
  unfold in_this_scope at 1. by rewrite bool_decide_eq_true_2.
Qed.

Lemma remembered_cons adjusted a passed :
  remembered adjusted (a :: passed)
  = remembered (match ShadowRootIfV1 h a with Some _ => a | None => adjusted end)
      passed.
Proof.
  unfold remembered. simpl. unfold is_strict_host at 1.
  destruct (ShadowRootIfV1 h a) as [r|] eqn:E.
  - rewrite bool_decide_eq_true_2 by eauto.
    rewrite last_cons. by destruct (list.last _).
  - rewrite bool_decide_eq_false_2; [done|]. by intros [? [=]].
Qed.

Lemma adjusted_loop_none fuel adjusted start chain :
  HostChain h start chain → (length chain ≤ fuel)%nat →
  Forall (λ a, GetTreeScope h a ≠ this) chain →
  adjusted_loop fuel h this adjusted start = Done None.
Proof.
  intros Hc. revert fuel adjusted.
  induction Hc as [|e chain Hc IH]; intros fuel adjusted Hf Hall.
  - by destruct fuel.
  - destruct fuel as [|fuel]; [simpl in Hf; lia|]. simpl in *.
    inversion Hall; subst. rewrite decide_False by done. apply IH; [lia|done].
Qed.

Lemma adjusted_loop_found fuel adjusted start passed m rest :
  HostChain h start (passed ++ m :: rest) →
  (length passed < fuel)%nat →
  Forall (λ a, GetTreeScope h a ≠ this) passed → GetTreeScope h m = this →
  adjusted_loop fuel h this adjusted start
  = Done (Some (remembered adjusted (passed ++ [m]))).
Proof.
  revert fuel adjusted start.
  induction passed as [|a passed IH]; intros fuel adjusted start Hc Hf Hall Hm.
  - inversion Hc; subst. destruct fuel as [|fuel]; [lia|]. simpl.
    rewrite decide_True by done. by rewrite remembered_cons.
  - inversion Hc; subst. inversion Hall; subst.
    destruct fuel as [|fuel]; [simpl in Hf; lia|]. simpl in *.
    rewrite decide_False by done. rewrite remembered_cons.
    apply IH; [done|lia|done|done].
Qed.

End Retargeting.

(** C4. [Retarget] walks the chain of encapsulation hosts of the target
    (self, host of self, host of host, ...) and returns the first element
    of that chain whose tree scope is [this]: it is the target itself when
    the target's own scope is [this], and null when no element of the
    chain belongs to [this]. *)
Theorem Retarget_first_host_in_scope
  (fuel : nat) (h : Heap) (this : ScopePtr) (target : NodePtr)
  (chain : list NodePtr) :
  HostChain h (Some target) chain → (length chain ≤ fuel)%nat →
  Retarget fuel h this target
    = Done (head (List.filter (in_this_scope h this) chain))
  ∧ (GetTreeScope h target = this →
     Retarget fuel h this target = Done (Some target))
  ∧ (Forall (λ a, GetTreeScope h a ≠ this) chain →
     Retarget fuel h this target = Done None)
  ∧ (∀ passed m rest,
       chain = passed ++ m :: rest →
       Forall (λ a, GetTreeScope h a ≠ this) passed →
       GetTreeScope h m = this →
       Retarget fuel h this target = Done (Some m)).
Proof.
  intros Hc Hf. unfold Retarget.
  rewrite (retarget_loop_spec h this fuel _ chain Hc Hf).
  split; [done|]. split; [|split].
  - intros Hs. inversion Hc; subst. simpl.
    unfold in_this_scope at 1. by rewrite bool_decide_eq_true_2.
  - intros Hall. by rewrite filter_none_in_scope.
  - intros passed m rest -> Hp Hm. by rewrite filter_first_in_scope.
Qed.

(** C5. [AdjustedElement] walks the same host chain as [Retarget] and
    answers null exactly when [Retarget] does; when the walk reaches an
    element of [this] scope it returns the strict (V1) host passed last on
    the way, the matching element included, and the target itself when no
    strict host was passed: hosts of legacy or user-agent shadow trees do
    not replace it.  For an element E in a strict shadow root hosted by H
    in scope D, [AdjustedElement] of D and E is H. *)
Theorem AdjustedElement_closest_strict_host :
  (∀ (fuel : nat) (h : Heap) (this : ScopePtr) (target : NodePtr)
     (chain : list NodePtr),
     HostChain h (Some target) chain → (length chain ≤ fuel)%nat →
     (Forall (λ a, GetTreeScope h a ≠ this) chain →
      Retarget fuel h this target = Done None
      ∧ AdjustedElement fuel h this target = Done None)
     ∧ (∀ passed m rest,
          chain = passed ++ m :: rest →
          Forall (λ a, GetTreeScope h a ≠ this) passed →
          GetTreeScope h m = this →
          Retarget fuel h this target = Done (Some m)
          ∧ AdjustedElement fuel h this target
            = Done (Some (remembered h target (passed ++ [m])))))
  ∧ (∀ (fuel : nat) (h : Heap) (D R : ScopePtr) (H E : NodePtr)
       (sr : ShadowRoot),
       GetTreeScope h E = R → GetTreeScope h H = D → D ≠ R →
       RootNode h R = ShadowRootNode sr → host sr = H → type sr = Strict →
       youngest_shadow_root (elements h H) = Some R →
       (2 ≤ fuel)%nat →
       AdjustedElement fuel h D E = Done (Some H)).
Proof.
  split.
  - intros fuel h this target chain Hc Hf. split.
    + intros Hall. split.
      * unfold Retarget.
        rewrite (retarget_loop_spec h this fuel _ chain Hc Hf).
        by rewrite filter_none_in_scope.
      * by apply (adjusted_loop_none h this fuel target _ chain).
    + intros passed m rest -> Hp Hm. split.
      * unfold Retarget.
        rewrite (retarget_loop_spec h this fuel _ _ Hc Hf).
        by rewrite filter_first_in_scope.
      * apply (adjusted_loop_found h this fuel target _ passed m rest);
          [done| |done|done].
        rewrite length_app in Hf. simpl in Hf. lia.
  - intros fuel h D R H E sr HE HH Hne HR Hhost Htype Hy Hf.
    destruct fuel as [|[|fuel]]; [lia|lia|].
    unfold AdjustedElement. simpl.
    rewrite decide_False by congruence.
    unfold OwnerShadowHost. rewrite HE, HR. simpl. rewrite Hhost.
    rewrite decide_True by congruence.
    unfold ShadowRootIfV1 at 1. rewrite Hy, HR.
    by rewrite decide_True.
Qed.

(** ** Ancestor chains *)

Section Chains.

Context (h : Heap).

Lemma ancestor_chain_spec fuel s chain :
  AncestorChain h s chain → (length chain ≤ fuel)%nat →
  ancestor_chain fuel h (Some s) = Done chain.
Proof.
  intros Hc. revert fuel. induction Hc as [s Hs|s p chain Hs Hc IH]; intros fuel Hf.
  - destruct fuel as [|fuel]; [simpl in Hf; lia|]. simpl. rewrite Hs.
    by destruct fuel.
  - destruct fuel as [|fuel]; [simpl in Hf; lia|]. simpl in *. rewrite Hs.
    rewrite IH by lia. reflexivity.
Qed.

Lemma AncestorChain_head s chain :
  AncestorChain h s chain → ∃ tl, chain = s :: tl.
Proof. destruct 1; eauto. Qed.

Lemma AncestorChain_functional s chain1 chain2 :
  AncestorChain h s chain1 → AncestorChain h s chain2 → chain1 = chain2.
Proof.
  intros H1. revert chain2. induction H1 as [s Hs|s p chain Hs H1 IH];
    intros chain2 H2; inversion H2; subst; try congruence.
  f_equal. apply IH. congruence.
Qed.

Lemma AncestorChain_last s chain :
  AncestorChain h s chain → ∃ top, list.last chain = Some top.
Proof.
  intros Hc. destruct (AncestorChain_head _ _ Hc) as [tl ->].
  apply last_is_Some. done.
Qed.

Lemma older_shadow_root_loop_spec fuel child1 start stack :
  OlderStack h start stack → (length stack ≤ fuel)%nat →
  older_shadow_root_loop fuel h child1 start
  = Done (bool_decide (child1 ∈ stack)).
Proof.
  intros Hs. revert fuel. induction Hs as [|s sr stack Hr Hs IH]; intros fuel Hf.
  - rewrite bool_decide_eq_false_2 by set_solver. by destruct fuel.
  - destruct fuel as [|fuel]; [simpl in Hf; lia|]. simpl in *.
    destruct (decide (s = child1)) as [->|Hd].
    + rewrite bool_decide_eq_true_2; [done|]. apply elem_of_cons; by left.
    + unfold OlderShadowRoot. rewrite Hr. simpl. rewrite IH by lia.
      f_equal. apply bool_decide_ext. rewrite elem_of_cons.
      split; [by right|]. intros [Heq|Hin]; [congruence|done].
Qed.

End Chains.

(** ** [ComparePosition] *)

Section ComparePositionFacts.

Variable compareDocumentPosition : NodePtr → option NodePtr → Z.
Context (fuel : nat) (h : Heap).

#[local] Abbreviation compare_loop :=
  (Forest.compare_loop compareDocumentPosition fuel h).
#[local] Abbreviation ComparePosition :=
  (Forest.ComparePosition compareDocumentPosition fuel h).

(** The loop passes over [k] pairs of equal entries. *)
Lemma compare_loop_skip chain1 chain2 k :
  ∀ i index1 index2,
    (k ≤ i)%nat →
    (∀ j, (j < k)%nat →
       ∃ x, chain1 !! (index1 - 1 - j)%nat = Some x
            ∧ chain2 !! (index2 - 1 - j)%nat = Some x) →
    compare_loop chain1 chain2 i index1 index2
    = compare_loop chain1 chain2 (i - k) (index1 - k) (index2 - k).
Proof.
  induction k as [|k IH]; intros i index1 index2 Hi Heq.
  - by rewrite !Nat.sub_0_r.
  - destruct i as [|i]; [lia|]. simpl.
    destruct (Heq 0%nat ltac:(lia)) as (x & H1 & H2).
    rewrite Nat.sub_0_r in H1, H2. unfold at_index. rewrite H1, H2. simpl.
    rewrite decide_False by (intros Hne; by apply Hne).
    rewrite IH.
    + f_equal; lia.
    + lia.
    + intros j Hj. destruct (Heq (S j) ltac:(lia)) as (y & Hy1 & Hy2).
      exists y. split.
      * rewrite <- Hy1. f_equal. lia.
      * rewrite <- Hy2. f_equal. lia.
Qed.

Lemma lookup_suffix (l common : list ScopePtr) j :
  (j < length common)%nat →
  (l ++ common) !! (length (l ++ common) - 1 - j)%nat
  = common !! (length common - 1 - j)%nat.
Proof.
  intros Hj. rewrite length_app.
  replace (length l + length common - 1 - j)%nat
    with (length l + (length common - 1 - j))%nat by lia.
  by rewrite lookup_app_r, Nat.add_comm, Nat.add_sub by lia.
Qed.

Lemma common_suffix_matches (l1 l2 common : list ScopePtr) j :
  (j < length common)%nat →
  ∃ x, (l1 ++ common) !! (length (l1 ++ common) - 1 - j)%nat = Some x
       ∧ (l2 ++ common) !! (length (l2 ++ common) - 1 - j)%nat = Some x.
Proof.
  intros Hj. rewrite !lookup_suffix by done.
  destruct (lookup_lt_is_Some_2 common (length common - 1 - j)%nat) as [x Hx];
    [lia|]. eauto.
Qed.

(** Both chains end in the same document scope once they share a
    non-empty suffix, so the disconnected exit is not taken. *)
Lemma ComparePosition_connected this other l1 l2 common :
  this ≠ other → common ≠ [] →
  AncestorChain h this (l1 ++ common) →
  AncestorChain h other (l2 ++ common) →
  (length (l1 ++ common) ≤ fuel)%nat → (length (l2 ++ common) ≤ fuel)%nat →
  ComparePosition this other
  = compare_loop (l1 ++ common) (l2 ++ common)
      (length l1 `min` length l2) (length l1) (length l2).
Proof.
  intros Hne Hcommon H1 H2 Hf1 Hf2. unfold Forest.ComparePosition.
  rewrite decide_False by congruence.
  rewrite (ancestor_chain_spec h fuel _ _ H1 Hf1).
  rewrite (ancestor_chain_spec h fuel _ _ H2 Hf2). simpl.
  assert (0 < length common)%nat as Hlen
      by (destruct common; [done|simpl; lia]).
  destruct (common_suffix_matches l1 l2 common 0 Hlen) as (x & Hx1 & Hx2).
  rewrite Nat.sub_0_r in Hx1, Hx2. unfold at_index at 1 2.
  rewrite Hx1, Hx2. simpl.
  rewrite decide_False by (intros Hn; by apply Hn).
  rewrite (compare_loop_skip _ _ (length common)).
  - rewrite !length_app. f_equal; lia.
  - rewrite !length_app. lia.
  - intros j Hj. by apply common_suffix_matches.
Qed.

(** The chains first differ at two shadow roots on one host. *)
Lemma ComparePosition_same_host this other l1 l2 a b common ra rb stack :
  AncestorChain h this (l1 ++ a :: common) →
  AncestorChain h other (l2 ++ b :: common) →
  a ≠ b → common ≠ [] →
  RootNode h a = ShadowRootNode ra → RootNode h b = ShadowRootNode rb →
  host ra = host rb →
  OlderStack h (older_shadow_root rb) stack →
  (length (l1 ++ a :: common) ≤ fuel)%nat →
  (length (l2 ++ b :: common) ≤ fuel)%nat →
  (length stack ≤ fuel)%nat →
  ComparePosition this other
  = Done (if bool_decide (a ∈ stack) then kDocumentPositionFollowing
          else kDocumentPositionPreceding).
Proof.
  intros H1 H2 Hab Hcommon Hra Hrb Hhost Hstack Hf1 Hf2 Hf3.
  assert (this ≠ other) as Hne.
  { intros ->. pose proof (AncestorChain_functional h _ _ _ H1 H2) as Heq.
    apply app_inj_2 in Heq as [_ [=]]; done. }
  rewrite (cons_middle a l1 common), app_assoc in H1, Hf1.
  rewrite (cons_middle b l2 common), app_assoc in H2, Hf2.
  rewrite (ComparePosition_connected this other (l1 ++ [a]) (l2 ++ [b]) common);
    try done.
  rewrite !length_app. simpl length.
  replace ((length l1 + 1) `min` (length l2 + 1))%nat
    with (S (length l1 `min` length l2)) by lia.
  simpl. rewrite !Nat.add_sub. unfold at_index.
  rewrite <- !app_assoc. simpl app. rewrite !list_lookup_middle by done. simpl.
  rewrite decide_True by done.
  unfold compare_children. rewrite Hra, Hrb. simpl. rewrite Hhost.
  rewrite decide_False by (intros Hn; by apply Hn).
  unfold OlderShadowRoot. rewrite Hrb. simpl.
  by rewrite (older_shadow_root_loop_spec h fuel a _ stack).
Qed.

End ComparePositionFacts.

(** C1. When the chain of one scope is a strict tail of the other's (the
    chains agree from the document end until the shorter one is used up),
    the scope with the shorter chain is the ancestor and [ComparePosition]
    reports the ancestor relation; its verdict tells where [other] is
    relative to [this].  The scope with the shorter chain is reported as
    "preceding + contains" (the verdict of the call that has it as
    [other]), and the scope with the longer chain is reported as
    "following + contained-by" (the verdict of the call that has it as
    [other]). *)
Theorem ComparePosition_ancestor_verdict
  (compareDocumentPosition : NodePtr → option NodePtr → Z)
  (fuel : nat) (h : Heap) (shorter longer : ScopePtr)
  (c l : list ScopePtr) :
  AncestorChain h shorter c → AncestorChain h longer (l ++ c) → l ≠ [] →
  (length (l ++ c) ≤ fuel)%nat →
  ComparePosition compareDocumentPosition fuel h shorter longer
  = Done (Z.lor kDocumentPositionFollowing kDocumentPositionContainedBy)
  ∧ ComparePosition compareDocumentPosition fuel h longer shorter
    = Done (Z.lor kDocumentPositionPreceding kDocumentPositionContains).
Proof.
  intros H1 H2 Hl Hf.
  assert (c ≠ []) as Hc
      by (destruct (AncestorChain_head h _ _ H1) as [? ->]; done).
  assert (shorter ≠ longer) as Hne.
  { intros ->. pose proof (AncestorChain_functional h _ _ _ H1 H2) as Heq.
    apply (f_equal length) in Heq. rewrite length_app in Heq.
    destruct l; [done|simpl in Heq; lia]. }
  assert (0 < length l)%nat as Hlen by (destruct l; [done|simpl; lia]).
  assert (length c ≤ fuel)%nat as Hfc by (rewrite length_app in Hf; lia).
  split.
  - (* [index1] reaches 0 while [index2] is still positive *)
    rewrite (ComparePosition_connected compareDocumentPosition fuel h
               shorter longer [] l c); try done.
    simpl. by rewrite decide_True.
  - (* [index2] reaches 0, so [index1 < index2] fails *)
    rewrite (ComparePosition_connected compareDocumentPosition fuel h
               longer shorter l [] c); try done.
    rewrite Nat.min_0_r. simpl. reflexivity.
Qed.

(** C2. When the two chains, walked from the document end, first differ at
    shadow roots [childA] (on the side of [this]) and [childB] (on the side
    of [other]) that have the same host, [ComparePosition] walks the stack
    of older shadow roots of [childB]: when [childA] is in it, [childA]
    precedes [childB] and the verdict is "following"; otherwise the verdict
    is "preceding".  For generations G1 (oldest) and G2 (newer) of one
    host, [ComparePosition] of G1 and G2 reports that G1 precedes G2. *)
Theorem ComparePosition_shadow_generations
  (compareDocumentPosition : NodePtr → option NodePtr → Z) :
  (∀ (fuel : nat) (h : Heap) (this other : ScopePtr)
     (l1 l2 common stack : list ScopePtr) (childA childB : ScopePtr)
     (ra rb : ShadowRoot),
     AncestorChain h this (l1 ++ childA :: common) →
     AncestorChain h other (l2 ++ childB :: common) →
     childA ≠ childB → common ≠ [] →
     RootNode h childA = ShadowRootNode ra →
     RootNode h childB = ShadowRootNode rb →
     host ra = host rb →
     OlderStack h (older_shadow_root rb) stack →
     (length (l1 ++ childA :: common) ≤ fuel)%nat →
     (length (l2 ++ childB :: common) ≤ fuel)%nat →
     (length stack ≤ fuel)%nat →
     ComparePosition compareDocumentPosition fuel h this other
     = Done (if bool_decide (childA ∈ stack) then kDocumentPositionFollowing
             else kDocumentPositionPreceding))
  ∧ (∀ (fuel : nat) (h : Heap) (G1 G2 P : ScopePtr) (chainP : list ScopePtr)
       (r1 r2 : ShadowRoot),
       G1 ≠ G2 →
       ParentTreeScope h G1 = Some P → ParentTreeScope h G2 = Some P →
       AncestorChain h P chainP →
       RootNode h G1 = ShadowRootNode r1 → RootNode h G2 = ShadowRootNode r2 →
       host r1 = host r2 →
       older_shadow_root r1 = None → older_shadow_root r2 = Some G1 →
       (S (length chainP) ≤ fuel)%nat →
       ComparePosition compareDocumentPosition fuel h G1 G2
       = Done kDocumentPositionFollowing
       ∧ ComparePosition compareDocumentPosition fuel h G2 G1
         = Done kDocumentPositionPreceding).
Proof.
  split.
  - intros. by eapply ComparePosition_same_host.
  - intros fuel h G1 G2 P chainP r1 r2 Hne HP1 HP2 HP Hr1 Hr2 Hhost Ho1 Ho2 Hf.
    assert (chainP ≠ []) as HnP
        by (destruct (AncestorChain_head h _ _ HP) as [? ->]; done).
    pose proof (chain_parent h G1 P chainP HP1 HP) as Hc1.
    pose proof (chain_parent h G2 P chainP HP2 HP) as Hc2.
    split.
    + rewrite (ComparePosition_same_host compareDocumentPosition fuel h
                 G1 G2 [] [] G1 G2 chainP r1 r2 [G1]); try done.
      * rewrite bool_decide_eq_true_2; [done|]. apply elem_of_cons; by left.
      * rewrite Ho2. eapply older_next; [done|]. rewrite Ho1. constructor.
      * simpl; lia.
    + rewrite (ComparePosition_same_host compareDocumentPosition fuel h
                 G2 G1 [] [] G2 G1 chainP r2 r1 []); try done.
      * rewrite Ho1. constructor.
      * simpl; lia.
Qed.

(** ** [CommonAncestorTreeScope] *)

Lemma back_snoc (l : list nat) x : back (l ++ [x]) = Some x.
Proof. apply last_snoc. Qed.

Lemma pop_back_snoc (l : list nat) x : pop_back (l ++ [x]) = l.
Proof.
  unfold pop_back. rewrite length_app. simpl.
  rewrite Nat.add_sub. by rewrite take_app_length.
Qed.

Lemma pop_back_length (l : list nat) : length (pop_back l) = (length l - 1)%nat.
Proof. unfold pop_back. rewrite length_take. lia. Qed.

(** The loop pops the common tail of the two chains and keeps its
    entry nearest to the two scopes. *)
Lemma pop_matching_common_tail (la lb common : list nat) :
  (∀ x, ¬ (back la = Some x ∧ back lb = Some x)) →
  ∀ fuel last_ancestor,
    (length common ≤ fuel)%nat →
    pop_matching fuel (la ++ common) (lb ++ common) last_ancestor
    = Done (match head common with
            | Some c => Some c
            | None => last_ancestor
            end).
Proof.
  intros Hdiff. induction common as [|x common IH] using rev_ind;
    intros fuel last_ancestor Hf.
  - rewrite !app_nil_r. simpl.
    destruct fuel; simpl;
      destruct (back la) as [a|] eqn:Ea, (back lb) as [b|] eqn:Eb; try done;
      (destruct (decide (a = b)) as [->|]; [|done]);
      by destruct (Hdiff b).
  - rewrite length_app in Hf. simpl in Hf.
    destruct fuel as [|fuel]; [lia|].
    rewrite !app_assoc. simpl. rewrite !back_snoc.
    rewrite decide_True by done. rewrite !pop_back_snoc.
    rewrite IH by lia. f_equal.
    destruct common as [|c common]; reflexivity.
Qed.

Lemma pop_matching_returns fuel :
  ∀ (ca cb : list nat) last_ancestor,
    (length ca ≤ fuel)%nat →
    ∃ r, pop_matching fuel ca cb last_ancestor = Done r.
Proof.
  induction fuel as [|fuel IH]; intros ca cb last_ancestor Hf.
  - destruct ca; [|simpl in Hf; lia]. simpl. eauto.
  - simpl. destruct (back ca) as [a|] eqn:Ea; [|eauto].
    destruct (back cb) as [b|]; [|eauto].
    destruct (decide (a = b)); [|eauto].
    apply IH. rewrite pop_back_length. lia.
Qed.

(** C8. [CommonAncestorTreeScope] returns the last scope that matched
    while the two ancestor chains are popped from their document ends, and
    returns null, as a value and without a fault, when the document-end
    entries of the chains differ (the scopes are in disconnected
    forests); on well-formed chains it always returns. *)
Theorem CommonAncestorTreeScope_last_match
  (fuel : nat) (h : Heap) (A B : ScopePtr) (ca cb : list ScopePtr) :
  AncestorChain h A ca → AncestorChain h B cb →
  (length ca ≤ fuel)%nat → (length cb ≤ fuel)%nat →
  (list.last ca ≠ list.last cb →
   CommonAncestorTreeScope fuel h A B = Done None)
  ∧ (∀ la lb c common,
       ca = la ++ c :: common → cb = lb ++ c :: common →
       (∀ x, ¬ (list.last la = Some x ∧ list.last lb = Some x)) →
       CommonAncestorTreeScope fuel h A B = Done (Some c))
  ∧ (∃ r, CommonAncestorTreeScope fuel h A B = Done r).
Proof.
  intros HA HB Hfa Hfb. unfold CommonAncestorTreeScope.
  rewrite (ancestor_chain_spec h fuel _ _ HA Hfa).
  rewrite (ancestor_chain_spec h fuel _ _ HB Hfb). simpl.
  split; [|split].
  - intros Hlast.
    rewrite <- (app_nil_r ca), <- (app_nil_r cb).
    rewrite pop_matching_common_tail; [done| |simpl; lia].
    intros x [Hx1 Hx2]. apply Hlast. unfold back in *. congruence.
  - intros la lb c common -> -> Hdiff.
    rewrite pop_matching_common_tail; [done|done|].
    rewrite length_app in Hfa. lia.
  - by apply pop_matching_returns.
Qed.

(** ** [SetParentTreeScope] *)

Lemma update_scope_same s f h : scopes (update_scope s f h) s = f (scopes h s).
Proof. unfold update_scope. simpl. apply fn_lookup_insert. Qed.

Lemma update_scope_other s s' f h :
  s ≠ s' → scopes (update_scope s f h) s' = scopes h s'.
Proof. intros. unfold update_scope. simpl. by apply fn_lookup_insert_ne. Qed.

(** C3 (as amended). [SetParentTreeScope] on a scope whose root is the
    document node fails its assertion.  On any other scope it returns, and
    then the parent of the scope is the new parent, the document of the
    scope is the document of the new parent, the rest of the scope is as
    before, and every other scope, the scopes below included, and every
    element is left as it was. *)
Theorem SetParentTreeScope_effect (h : Heap) (this new_parent_scope : ScopePtr) :
  (IsDocumentNode (RootNode h this) = true →
   SetParentTreeScope h this new_parent_scope = AssertFail)
  ∧ (IsDocumentNode (RootNode h this) = false →
     ∃ h', SetParentTreeScope h this new_parent_scope = Done h'
       ∧ ParentTreeScope h' this = Some new_parent_scope
       ∧ GetDocument h' this = GetDocument h new_parent_scope
       ∧ GetDocument h' this = GetDocument h' new_parent_scope
       ∧ RootNode h' this = RootNode h this
       ∧ elements_by_id_ (scopes h' this) = elements_by_id_ (scopes h this)
       ∧ id_target_observer_registry_ (scopes h' this)
         = id_target_observer_registry_ (scopes h this)
       ∧ (∀ s, s ≠ this → scopes h' s = scopes h s)
       ∧ elements h' = elements h).
Proof.
  unfold SetParentTreeScope. split; intros Hdoc; rewrite Hdoc; [done|].
  eexists. split; [reflexivity|].
  assert (GetDocument
            (update_scope this (set_parent_tree_scope_ (Some new_parent_scope)) h)
            new_parent_scope = GetDocument h new_parent_scope) as Hd.
  { unfold GetDocument. destruct (decide (this = new_parent_scope)) as [->|Hne].
    - by rewrite update_scope_same.
    - by rewrite update_scope_other. }
  rewrite Hd.
  unfold ParentTreeScope, GetDocument, RootNode.
  rewrite !update_scope_same. simpl.
  repeat split; try done.
  - destruct (decide (this = new_parent_scope)) as [->|Hne].
    + by rewrite !fn_lookup_insert.
    + by rewrite !fn_lookup_insert_ne.
  - intros s Hs. by rewrite !fn_lookup_insert_ne.
Qed.

(** ** The identifier index *)

Section IndexFacts.

Variable tree_position : NodePtr → nat.

#[local] Abbreviation before :=
  (λ a b : NodePtr, tree_position a ≤ tree_position b)%nat.
#[local] Abbreviation tree_ordered := (Forest.tree_ordered tree_position).
#[local] Abbreviation index_ordered := (Forest.index_ordered tree_position).
#[local] Abbreviation insert_in_tree_order :=
  (Forest.insert_in_tree_order tree_position).
#[local] Abbreviation AddElementById := (Forest.AddElementById tree_position).
#[local] Abbreviation index_reachable := (Forest.index_reachable tree_position).

Lemma elem_of_insert_in_tree_order e l x :
  x ∈ insert_in_tree_order e l ↔ x = e ∨ x ∈ l.
Proof.
  induction l as [|y l IH]; simpl.
  - rewrite list_elem_of_singleton, elem_of_nil. tauto.
  - case_decide; rewrite !elem_of_cons; [tauto|]. rewrite IH. tauto.
Qed.

Lemma insert_in_tree_order_sorted e l :
  tree_ordered l → tree_ordered (insert_in_tree_order e l).
Proof.
  unfold Forest.tree_ordered. induction 1 as [|y l Hl IH Hy]; simpl.
  - repeat constructor.
  - case_decide as Hle.
    + constructor; [by constructor|]. constructor; [done|].
      rewrite list.Forall_forall in Hy. apply list.Forall_forall. intros x Hx.
      specialize (Hy x Hx). simpl in Hy. lia.
    + constructor; [done|]. apply list.Forall_forall. intros x Hx.
      apply elem_of_insert_in_tree_order in Hx as [->|Hx]; [lia|].
      rewrite list.Forall_forall in Hy. by apply Hy.
Qed.

Lemma elem_of_remove_one e l x : x ∈ remove_one e l → x ∈ l.
Proof.
  induction l as [|y l IH]; simpl; [done|].
  case_decide; rewrite !elem_of_cons; [by right|].
  intros [->|Hx]; [by left|right; by apply IH].
Qed.

Lemma remove_one_sorted e l : tree_ordered l → tree_ordered (remove_one e l).
Proof.
  unfold Forest.tree_ordered. induction 1 as [|y l Hl IH Hy]; simpl.
  - constructor.
  - case_decide; [done|]. constructor; [done|].
    apply list.Forall_forall. intros x Hx. apply elem_of_remove_one in Hx.
    rewrite list.Forall_forall in Hy. by apply Hy.
Qed.

Lemma index_reachable_ordered this : index_reachable this → index_ordered this.
Proof.
  induction 1 as [this Hnone|key element this _ IH|key element this _ IH];
    intros m k l Hm Hk.
  - congruence.
  - simpl in Hm. injection Hm as <-. unfold TreeOrderedMap_Add in Hk.
    destruct (decide (key = k)) as [->|Hne].
    + rewrite lookup_insert_eq in Hk. injection Hk as <-.
      apply insert_in_tree_order_sorted.
      destruct (elements_by_id_ this) as [m0|] eqn:Em0.
      * destruct (m0 !! k) as [l0|] eqn:El0; simpl; [|constructor].
        by eapply IH.
      * unfold TreeOrderedMap_Create. rewrite lookup_empty. constructor.
    + rewrite lookup_insert_ne in Hk by done.
      destruct (elements_by_id_ this) as [m0|] eqn:Em0.
      * by eapply IH.
      * unfold TreeOrderedMap_Create in Hk. by rewrite lookup_empty in Hk.
  - unfold RemoveElementById in Hm.
    destruct (elements_by_id_ this) as [m0|] eqn:Em0; [|congruence].
    simpl in Hm. injection Hm as <-. unfold TreeOrderedMap_Remove in Hk.
    destruct (m0 !! key) as [l0|] eqn:El0; [|by eapply IH].
    pose proof (remove_one_sorted element l0 (IH _ _ _ Em0 El0)) as Hs.
    destruct (remove_one element l0) as [|y l'] eqn:Er.
    + destruct (decide (key = k)) as [->|Hne].
      * by rewrite lookup_delete_eq in Hk.
      * rewrite lookup_delete_ne in Hk by done. by eapply IH.
    + destruct (decide (key = k)) as [->|Hne].
      * rewrite lookup_insert_eq in Hk. by injection Hk as <-.
      * rewrite lookup_insert_ne in Hk by done. by eapply IH.
Qed.

Lemma indexed_by_callers_reachable this :
  Forest.indexed_by_callers tree_position this → index_reachable this.
Proof.
  induction 1; [by apply reach_new|by apply reach_add|by apply reach_remove].
Qed.

Lemma indexed_by_callers_no_empty_key this :
  Forest.indexed_by_callers tree_position this → carriers "" this = [].
Proof.
  induction 1 as [this Hnone|key element this Hkey _ IH|key element this Hkey _ IH];
    unfold carriers in *.
  - by rewrite Hnone.
  - simpl. unfold TreeOrderedMap_Add. rewrite lookup_insert_ne by done.
    destruct (elements_by_id_ this); [done|].
    unfold TreeOrderedMap_Create. by rewrite lookup_empty.
  - unfold RemoveElementById.
    destruct (elements_by_id_ this) as [m|] eqn:Em; simpl; [|by rewrite Em].
    unfold TreeOrderedMap_Remove. destruct (m !! key) as [l|]; [|done].
    destruct (remove_one element l).
    + by rewrite lookup_delete_ne.
    + by rewrite lookup_insert_ne.
Qed.

Lemma getElementById_carriers key this :
  key ≠ "" → getElementById key this = head (carriers key this).
Proof.
  intros Hkey. unfold getElementById, carriers, IsEmpty.
  rewrite bool_decide_eq_false_2 by done.
  destruct (elements_by_id_ this) as [m|]; [|done].
  unfold TreeOrderedMap_GetElementById. by destruct (m !! key).
Qed.

End IndexFacts.

(** C6 (as amended). Every [AddElementById] notifies the observer registry
    of the scope for the key.  [RemoveElementById] notifies it for the key
    whenever the scope has an index, also when the element is not in it;
    when the scope has no index, [RemoveElementById] returns at once,
    without a notification, and leaves the scope as it was. *)
Theorem index_calls_notify
  (tree_position : NodePtr → nat)
  (key : AtomicString) (element : NodePtr) (this : TreeScope) :
  id_target_observer_registry_ (AddElementById tree_position key element this)
  = id_target_observer_registry_ this ++ [key]
  ∧ (∀ m, elements_by_id_ this = Some m →
       id_target_observer_registry_ (RemoveElementById key element this)
       = id_target_observer_registry_ this ++ [key])
  ∧ (elements_by_id_ this = None →
     RemoveElementById key element this = this).
Proof.
  split; [done|]. unfold RemoveElementById.
  split; [by intros m ->|by intros ->].
Qed.

(** C7. [getElementById] returns null for the empty key, whatever the
    index holds (the empty key is never looked up), and null when no
    element of the scope is indexed under the key; for a non-empty key that
    some element carries it returns an element carrying the key that is
    first in tree order among them.  In the scopes the callers produce the
    index holds nothing under the empty key. *)
Theorem getElementById_first_in_tree_order
  (tree_position : NodePtr → nat) (key : AtomicString) (this : TreeScope) :
  index_reachable tree_position this →
  (key = "" → getElementById key this = None)
  ∧ (carriers key this = [] → getElementById key this = None)
  ∧ (key ≠ "" → carriers key this ≠ [] →
     ∃ first,
       getElementById key this = Some first
       ∧ first ∈ carriers key this
       ∧ ∀ e, e ∈ carriers key this →
              (tree_position first ≤ tree_position e)%nat)
  ∧ (indexed_by_callers tree_position this → carriers "" this = []).
Proof.
  intros Hreach. split; [by intros ->|]. split; [|split].
  - intros Hnone. destruct (decide (key = "")) as [->|Hkey]; [done|].
    rewrite getElementById_carriers by done. by rewrite Hnone.
  - intros Hkey Hsome. rewrite getElementById_carriers by done.
    pose proof (index_reachable_ordered _ _ Hreach) as Hord.
    unfold carriers in *. destruct (elements_by_id_ this) as [m|] eqn:Em; [|done].
    destruct (m !! key) as [l|] eqn:El; [|done]. simpl in *.
    specialize (Hord m key l Em El).
    destruct l as [|first l]; [done|]. exists first.
    split; [done|]. split; [apply elem_of_cons; by left|].
    intros e He. apply elem_of_cons in He as [->|He]; [done|].
    apply StronglySorted_inv in Hord as [_ Hall].
    rewrite list.Forall_forall in Hall. by apply Hall.
  - apply indexed_by_callers_no_empty_key.
Qed.

(** C10. [getElementById] and [GetAllElementsById] leave the scope as it
    is.  On a scope without an identifier index they return null and the
    empty vector, and of all the calls only [AddElementById] gives the
    scope an index (the new map with the added element); every other call,
    [RemoveElementById] included, leaves the scope unchanged, so without an
    index. *)
Theorem identifier_index_created_by_add_only
  (tree_position : NodePtr → nat) :
  (∀ (this : TreeScope) (key : AtomicString),
     scope_after tree_position (CallGet key) this = this
     ∧ scope_after tree_position (CallGetAll key) this = this)
  ∧ (∀ (this : TreeScope) (c : IndexCall),
       elements_by_id_ this = None →
       (∀ key, getElementById key this = None
               ∧ GetAllElementsById key this = [])
       ∧ (is_add_call c = false →
          scope_after tree_position c this = this
          ∧ elements_by_id_ (scope_after tree_position c this) = None)
       ∧ (∀ key element, c = CallAdd key element →
            elements_by_id_ (scope_after tree_position c this)
            = Some (TreeOrderedMap_Add tree_position key element
                      TreeOrderedMap_Create))).
Proof.
  split; [done|]. intros this c Hnone. split; [|split].
  - intros key. unfold getElementById, GetAllElementsById. rewrite Hnone.
    by destruct (IsEmpty key).
  - destruct c; simpl; try done.
    unfold RemoveElementById. by rewrite Hnone.
  - intros key element ->. simpl. by rewrite Hnone.
Qed.

(** ** The access-key scan *)

Module ScanFacts.

Import Scan.

Section AccessKeyFacts.

Variable DeprecatedEqualIgnoringCase : option string → string → bool.
Variable key : string.

#[local] Abbreviation scan_element :=
  (Scan.scan_element DeprecatedEqualIgnoringCase key).
#[local] Abbreviation GetElementByAccessKey :=
  (Scan.GetElementByAccessKey DeprecatedEqualIgnoringCase key).
#[local] Abbreviation loop_body :=
  (Scan.loop_body DeprecatedEqualIgnoringCase key).
#[local] Abbreviation matching :=
  (List.filter (Scan.matches DeprecatedEqualIgnoringCase key)).

Lemma override_assoc r f g : override (override r f) g = override r (override f g).
Proof. by destruct g. Qed.

Lemma override_None f : override None f = f.
Proof. by destruct f. Qed.

Lemma last_matching_app l1 l2 :
  list.last (matching (l1 ++ l2))
  = override (list.last (matching l1)) (list.last (matching l2)).
Proof. rewrite List.filter_app, last_app. by destruct (list.last (matching l2)). Qed.

Lemma fold_left_flat_map {A B C} (f : A → B → A) (g : C → list B) l r :
  fold_left f (flat_map g l) r = fold_left (λ r c, fold_left f (g c) r) l r.
Proof.
  revert r. induction l as [|c l IH]; intros r; simpl; [done|].
  by rewrite fold_left_app, IH.
Qed.

(** The recursion over the child lists is the loop of the source over
    [DescendantsOf]. *)
Lemma scan_element_loop e :
  ∀ result,
    scan_element result e = fold_left loop_body (inclusive_descendants e) result.
Proof.
  induction e as [id a srs cs _ IH|cs _]
    using Element_tree_ind with (Q := λ _, True); [|done].
  intros result.
  change (fold_left scan_element cs (loop_body result (mkElement id a srs cs))
          = fold_left loop_body (flat_map inclusive_descendants cs)
              (loop_body result (mkElement id a srs cs))).
  rewrite fold_left_flat_map.
  generalize (loop_body result (mkElement id a srs cs)).
  induction IH as [|c cs Hc _ IHcs]; intros r; simpl; [done|].
  by rewrite Hc, IHcs.
Qed.

Lemma GetElementByAccessKey_loop s :
  GetElementByAccessKey s
  = if bool_decide (key = "") then None
    else fold_left loop_body (DescendantsOf s) None.
Proof.
  destruct s as [cs]. simpl. case_bool_decide; [done|].
  unfold DescendantsOf. simpl. rewrite fold_left_flat_map.
  generalize (@None Element). induction cs as [|c cs IH]; intros r; simpl; [done|].
  by rewrite scan_element_loop, IH.
Qed.

Hypothesis key_not_empty : key ≠ "".

#[local] Abbreviation element_ok := (λ e : Element,
  ∀ result,
    scan_element result e
    = override result (list.last (matching (visit_element e)))).
#[local] Abbreviation scope_ok := (λ s : TreeScope,
  GetElementByAccessKey s = list.last (matching (visit_scope s))).

Lemma scan_children cs :
  Forall element_ok cs →
  ∀ result,
    fold_left scan_element cs result
    = override result (list.last (matching (flat_map visit_element cs))).
Proof.
  induction 1 as [|c cs Hc _ IH]; intros result; simpl; [done|].
  by rewrite IH, Hc, last_matching_app, override_assoc.
Qed.

Lemma scan_shadow_roots srs :
  Forall scope_ok srs →
  ∀ result,
    fold_left
      (λ result shadow_root,
         match GetElementByAccessKey shadow_root with
         | Some shadow_result => Some shadow_result
         | None => result
         end) srs result
    = override result (list.last (matching (flat_map visit_scope srs))).
Proof.
  induction 1 as [|sr srs Hsr _ IH]; intros result; simpl; [done|].
  rewrite IH, Hsr, last_matching_app, <- override_assoc. reflexivity.
Qed.

Lemma element_ok_case id a srs cs :
  Forall scope_ok srs → Forall element_ok cs →
  element_ok (mkElement id a srs cs).
Proof.
  intros Hsrs Hcs result.
  change (visit_element (mkElement id a srs cs))
    with ([mkElement id a srs cs]
          ++ flat_map visit_scope srs ++ flat_map visit_element cs).
  rewrite !last_matching_app, <- !override_assoc.
  rewrite <- (scan_shadow_roots srs Hsrs), <- (scan_children cs Hcs).
  simpl. unfold matches. simpl.
  by destruct (DeprecatedEqualIgnoringCase a key).
Qed.

Lemma scope_ok_case cs : Forall element_ok cs → scope_ok (mkTreeScope cs).
Proof.
  intros Hcs. simpl. rewrite bool_decide_eq_false_2 by done.
  by rewrite (scan_children cs Hcs), override_None.
Qed.

Lemma GetElementByAccessKey_visit s : scope_ok s.
Proof.
  apply (TreeScope_tree_ind element_ok scope_ok);
    [apply element_ok_case|apply scope_ok_case].
Qed.

End AccessKeyFacts.

(** C9. For a non-empty key, [GetElementByAccessKey] runs the loop of the
    source over the elements below the root in document order, going at
    each element into the shadow roots it hosts, youngest first, before it
    goes on; its result is the last element with a matching [accesskey] in
    that visiting order, and null when no visited element matches. *)
Theorem GetElementByAccessKey_last_match
  (DeprecatedEqualIgnoringCase : option string → string → bool)
  (key : string) (this : TreeScope) :
  key ≠ "" →
  GetElementByAccessKey DeprecatedEqualIgnoringCase key this
  = fold_left (loop_body DeprecatedEqualIgnoringCase key)
      (DescendantsOf this) None
  ∧ GetElementByAccessKey DeprecatedEqualIgnoringCase key this
    = last_match DeprecatedEqualIgnoringCase key this
  ∧ (Forall (λ e, matches DeprecatedEqualIgnoringCase key e = false)
       (visit_scope this) →
     GetElementByAccessKey DeprecatedEqualIgnoringCase key this = None).
Proof.
  intros Hkey. split; [|split].
  - rewrite GetElementByAccessKey_loop. by rewrite bool_decide_eq_false_2.
  - by apply GetElementByAccessKey_visit.
  - intros Hnone. rewrite GetElementByAccessKey_visit by done.
    induction Hnone as [|e l He _ IH]; [done|]. simpl. by rewrite He.
Qed.

End ScanFacts.

(** * The properties on the sample forests *)

Import Samples.

Lemma forest_chain_0 : AncestorChain forest 0 [0%nat].
Proof. by constructor. Defined.

Lemma forest_chain_1 : AncestorChain forest 1 [1%nat; 0%nat].
Proof. eapply chain_parent; [reflexivity|]. exact forest_chain_0. Defined.

Lemma forest_chain_2 : AncestorChain forest 2 [2%nat; 0%nat].
Proof. eapply chain_parent; [reflexivity|]. exact forest_chain_0. Defined.

Lemma forest_chain_3 : AncestorChain forest 3 [3%nat; 1%nat; 0%nat].
Proof. eapply chain_parent; [reflexivity|]. exact forest_chain_1. Defined.

Lemma forest_chain_4 : AncestorChain forest 4 [4%nat].
Proof. by constructor. Defined.

Lemma forest_hosts_12 : HostChain forest (Some 12%nat) [12%nat; 11%nat; 10%nat].
Proof. repeat (apply hosts_next; simpl). apply hosts_end. Defined.

(** The document scope 0 is the ancestor of scope 3: seen from 0, scope 3
    follows and is contained; seen from 3, scope 0 precedes and contains. *)
Lemma ComparePosition_ancestor_verdict_witness :
  ComparePosition no_order 8 forest 0 3
  = Done (Z.lor kDocumentPositionFollowing kDocumentPositionContainedBy)
  ∧ ComparePosition no_order 8 forest 3 0
    = Done (Z.lor kDocumentPositionPreceding kDocumentPositionContains).
Proof.
  apply (ComparePosition_ancestor_verdict no_order 8 forest 0 3
           [0%nat] [3%nat; 1%nat]).
  - exact forest_chain_0.
  - exact forest_chain_3.
  - discriminate.
  - simpl. lia.
Defined.

(** Scope 3 lies in the older generation 1 of host 10, scope 2 is the
    younger generation. *)
Lemma ComparePosition_shadow_generations_witness :
  ComparePosition no_order 8 forest 3 2 = Done kDocumentPositionFollowing
  ∧ ComparePosition no_order 8 forest 1 2 = Done kDocumentPositionFollowing
  ∧ ComparePosition no_order 8 forest 2 1 = Done kDocumentPositionPreceding.
Proof.
  destruct (ComparePosition_shadow_generations no_order) as [Hgen Hg12].
  split.
  - apply (Hgen 8%nat forest 3%nat 2%nat [3%nat] [] [0%nat] [1%nat] 1%nat 2%nat
             {| host := 10; older_shadow_root := None; type := Strict |}
             {| host := 10; older_shadow_root := Some 1%nat; type := Strict |}).
    + exact forest_chain_3.
    + exact forest_chain_2.
    + discriminate.
    + discriminate.
    + reflexivity.
    + reflexivity.
    + reflexivity.
    + eapply older_next; [reflexivity|]. apply older_end.
    + simpl. lia.
    + simpl. lia.
    + simpl. lia.
  - apply (Hg12 8%nat forest 1%nat 2%nat 0%nat [0%nat]
             {| host := 10; older_shadow_root := None; type := Strict |}
             {| host := 10; older_shadow_root := Some 1%nat; type := Strict |}).
    + discriminate.
    + reflexivity.
    + reflexivity.
    + exact forest_chain_0.
    + reflexivity.
    + reflexivity.
    + reflexivity.
    + reflexivity.
    + reflexivity.
    + simpl. lia.
Defined.

(** Scope 1 is moved under the second document. *)
Lemma SetParentTreeScope_effect_witness :
  SetParentTreeScope forest 0 4 = AssertFail
  ∧ ∃ h', SetParentTreeScope forest 1 4 = Done h'
      ∧ ParentTreeScope h' 1 = Some 4%nat
      ∧ GetDocument h' 1 = 4%nat
      ∧ scopes h' 3 = scopes forest 3.
Proof.
  split.
  - apply (SetParentTreeScope_effect forest 0 4). reflexivity.
  - destruct (SetParentTreeScope_effect forest 1 4) as [_ Hmove].
    destruct (Hmove eq_refl) as (h' & Hrun & Hparent & Hdoc & _ & _ & _ & _ & Hother & _).
    exists h'. split; [exact Hrun|]. split; [exact Hparent|].
    split; [exact Hdoc|]. apply Hother. discriminate.
Defined.

(** After scope 1 is moved under the second document, scope 3 below it
    still reports the first document. *)
Lemma SetParentTreeScope_counterexample :
  IsDocumentNode (RootNode forest 1) = false
  ∧ ∃ h', SetParentTreeScope forest 1 4 = Done h'
      ∧ ParentTreeScope h' 1 = Some 4%nat
      ∧ IsInclusiveAncestorOf 8 h' 1 3 = Done true
      ∧ GetDocument h' 4 = 4%nat
      ∧ GetDocument h' 3 = 0%nat
      ∧ GetDocument h' 3 ≠ GetDocument h' 4.
Proof.
  split; [reflexivity|]. eexists. split; [reflexivity|].
  repeat split; vm_compute; discriminate.
Qed.

(** Element 12 sits two shadow trees below the document scope 0. *)
Lemma Retarget_first_host_in_scope_witness :
  Retarget 8 forest 0 12 = Done (Some 10%nat)
  ∧ Retarget 8 forest 3 12 = Done (Some 12%nat)
  ∧ Retarget 8 forest 2 12 = Done None.
Proof.
  split; [|split].
  - apply (Retarget_first_host_in_scope 8 forest 0 12 _ forest_hosts_12
             ltac:(simpl; lia)).
  - apply (Retarget_first_host_in_scope 8 forest 3 12 _ forest_hosts_12
             ltac:(simpl; lia)).
    reflexivity.
  - apply (Retarget_first_host_in_scope 8 forest 2 12 _ forest_hosts_12
             ltac:(simpl; lia)).
    repeat constructor; discriminate.
Defined.

(** Seen from the document, element 12 is replaced by the strict host 10;
    seen from scope 1, across the legacy shadow root of host 11 only, it is
    not replaced. *)
Lemma AdjustedElement_closest_strict_host_witness :
  AdjustedElement 8 forest 0 12 = Done (Some 10%nat)
  ∧ AdjustedElement 8 forest 1 12 = Done (Some 12%nat)
  ∧ AdjustedElement 8 forest 2 12 = Done None
  ∧ AdjustedElement 8 forest 0 13 = Done (Some 10%nat).
Proof.
  destruct AdjustedElement_closest_strict_host as [Hwalk Hhost].
  assert (length [12%nat; 11%nat; 10%nat] ≤ 8)%nat as Hfuel by (simpl; lia).
  split; [|split; [|split]].
  - destruct (Hwalk 8%nat forest 0%nat 12%nat _ forest_hosts_12 Hfuel)
      as [_ Hfound].
    apply (Hfound [12%nat; 11%nat] 10%nat []); [reflexivity| |reflexivity].
    repeat constructor; discriminate.
  - destruct (Hwalk 8%nat forest 1%nat 12%nat _ forest_hosts_12 Hfuel)
      as [_ Hfound].
    apply (Hfound [12%nat] 11%nat [10%nat]); [reflexivity| |reflexivity].
    repeat constructor; discriminate.
  - destruct (Hwalk 8%nat forest 2%nat 12%nat _ forest_hosts_12 Hfuel)
      as [Hnone _].
    apply Hnone. repeat constructor; discriminate.
  - apply (Hhost 8%nat forest 0%nat 2%nat 10%nat 13%nat
             {| host := 10; older_shadow_root := Some 1%nat; type := Strict |});
      try reflexivity; [discriminate|lia].
Defined.

(** Scopes 3 and 2 meet in the document scope 0; the two documents have
    no scope in common. *)
Lemma CommonAncestorTreeScope_last_match_witness :
  CommonAncestorTreeScope 8 forest 3 2 = Done (Some 0%nat)
  ∧ CommonAncestorTreeScope 8 forest 3 1 = Done (Some 1%nat)
  ∧ CommonAncestorTreeScope 8 forest 0 4 = Done None.
Proof.
  split; [|split].
  - destruct (CommonAncestorTreeScope_last_match 8 forest 3 2 _ _
                forest_chain_3 forest_chain_2) as (_ & Hcommon & _);
      [simpl; lia|simpl; lia|].
    apply (Hcommon [3%nat; 1%nat] [2%nat] 0%nat []); [reflexivity|reflexivity|].
    intros x [H1 H2]. simpl in H1, H2. congruence.
  - destruct (CommonAncestorTreeScope_last_match 8 forest 3 1 _ _
                forest_chain_3 forest_chain_1) as (_ & Hcommon & _);
      [simpl; lia|simpl; lia|].
    apply (Hcommon [3%nat] [] 1%nat [0%nat]); [reflexivity|reflexivity|].
    intros x [H1 H2]. simpl in H1, H2. congruence.
  - destruct (CommonAncestorTreeScope_last_match 8 forest 0 4 _ _
                forest_chain_0 forest_chain_4) as (Hnone & _ & _);
      [simpl; lia|simpl; lia|].
    apply Hnone. simpl. congruence.
Defined.

(** A scope without an index is not notified by a removal. *)
Lemma index_calls_notify_counterexample :
  elements_by_id_ (document_scope 0) = None
  ∧ id_target_observer_registry_ (RemoveElementById "x" 7 (document_scope 0))
    = []
  ∧ id_target_observer_registry_ (RemoveElementById "x" 7 (document_scope 0))
    ≠ NotifyObservers "x" (id_target_observer_registry_ (document_scope 0)).
Proof. repeat split. vm_compute. discriminate. Qed.

(** Element 7 is not in the index of [indexed_scope]; its removal is
    notified all the same. *)
Lemma index_calls_notify_witness :
  id_target_observer_registry_ (RemoveElementById "x" 7 indexed_scope)
  = id_target_observer_registry_ indexed_scope ++ ["x"]
  ∧ RemoveElementById "x" 7 (document_scope 0) = document_scope 0.
Proof.
  split.
  - destruct (index_calls_notify by_pointer "x" 7 indexed_scope)
      as (_ & Hremove & _).
    eapply Hremove. reflexivity.
  - apply (index_calls_notify by_pointer "x" 7 (document_scope 0)).
    reflexivity.
Defined.

Lemma indexed_scope_reachable : index_reachable by_pointer indexed_scope.
Proof. apply reach_add, reach_add, reach_new. reflexivity. Defined.

Lemma getElementById_first_in_tree_order_witness :
  ∃ first,
    getElementById "x" indexed_scope = Some first
    ∧ first ∈ carriers "x" indexed_scope
    ∧ ∀ e, e ∈ carriers "x" indexed_scope → (by_pointer first ≤ by_pointer e)%nat.
Proof.
  destruct (getElementById_first_in_tree_order by_pointer "x" indexed_scope
              indexed_scope_reachable) as (_ & _ & Hfirst & _).
  apply Hfirst.
  - discriminate.
  - vm_compute. discriminate.
Defined.

(** The scenario of the spec on the identifier index. *)
Example identifier_index_scenario :
  getElementById "x" indexed_scope = Some 3%nat
  ∧ GetAllElementsById "x" indexed_scope = [3%nat; 5%nat]
  ∧ getElementById "x" (RemoveElementById "x" 3 indexed_scope) = Some 5%nat
  ∧ getElementById "x"
      (RemoveElementById "x" 5 (RemoveElementById "x" 3 indexed_scope)) = None
  ∧ getElementById "" (AddElementById by_pointer "" 3 (document_scope 0)) = None.
Proof. repeat split; vm_compute; reflexivity. Qed.

Lemma identifier_index_created_by_add_only_witness :
  scope_after by_pointer (CallRemove "x" 3) (document_scope 0) = document_scope 0
  ∧ elements_by_id_ (scope_after by_pointer (CallAdd "x" 3) (document_scope 0))
    = Some (TreeOrderedMap_Add by_pointer "x" 3 TreeOrderedMap_Create).
Proof.
  destruct (identifier_index_created_by_add_only by_pointer) as [_ Habsent].
  split.
  - destruct (Habsent (document_scope 0) (CallRemove "x" 3) eq_refl)
      as (_ & Hkeep & _).
    apply Hkeep. reflexivity.
  - destruct (Habsent (document_scope 0) (CallAdd "x" 3) eq_refl)
      as (_ & _ & Hadd).
    apply (Hadd "x" 3%nat). reflexivity.
Defined.

Lemma GetElementByAccessKey_last_match_witness :
  Scan.GetElementByAccessKey ScanSamples.same_text "a" ScanSamples.document
  = Scan.last_match ScanSamples.same_text "a" ScanSamples.document.
Proof.
  apply (ScanFacts.GetElementByAccessKey_last_match
           ScanSamples.same_text "a" ScanSamples.document).
  discriminate.
Defined.

(** The scan visits 1, 2, 3, 4, 5; the last match for the key a is the
    child 4, for the key b it is element 3 of the older shadow root. *)
Example access_key_scenario :
  Scan.visit_scope ScanSamples.document
  = [ScanSamples.e1; ScanSamples.e2; ScanSamples.e3;
     ScanSamples.e4; ScanSamples.e5]
  ∧ Scan.GetElementByAccessKey ScanSamples.same_text "a" ScanSamples.document
    = Some ScanSamples.e4
  ∧ Scan.GetElementByAccessKey ScanSamples.same_text "b" ScanSamples.document
    = Some ScanSamples.e3
  ∧ Scan.GetElementByAccessKey ScanSamples.same_text "c" ScanSamples.document
    = None.
Proof. repeat split; vm_compute; reflexivity. Qed.

(** * Further properties of the navigation functions *)

Section AncestorFacts.

Context (h : Heap).

(** Every tail of an ancestor chain is the chain of its first scope. *)
Lemma AncestorChain_tail s l c rest :
  AncestorChain h s (l ++ c :: rest) → AncestorChain h c (c :: rest).
Proof.
  revert s. induction l as [|x l IH]; intros s Hc; simpl in Hc.
  - destruct (AncestorChain_head h _ _ Hc) as [tl [= <- _]]. done.
  - inversion Hc as [? Hs Heq|? p chain Hs Hp]; subst.
    + by destruct l.
    + by apply (IH p).
Qed.

Lemma AncestorChain_member s chain a :
  AncestorChain h s chain → a ∈ chain →
  ∃ l ca, chain = l ++ ca ∧ AncestorChain h a ca.
Proof.
  intros Hc Ha. apply list_elem_of_split in Ha as (l & rest & ->).
  exists l, (a :: rest). split; [done|]. by eapply AncestorChain_tail.
Qed.

Lemma inclusive_ancestor_loop_spec fuel this s chain :
  AncestorChain h s chain → (length chain ≤ fuel)%nat →
  inclusive_ancestor_loop fuel h this (Some s)
  = Done (bool_decide (this ∈ chain)).
Proof.
  intros Hc. revert fuel.
  induction Hc as [s Hs|s p chain Hs Hc IH]; intros fuel Hf;
    (destruct fuel as [|fuel]; [simpl in Hf; lia|]); simpl in *.
  - destruct (decide (s = this)) as [->|Hne].
    + rewrite bool_decide_eq_true_2; [done|]. apply elem_of_cons; by left.
    + rewrite Hs. rewrite bool_decide_eq_false_2; [by destruct fuel|].
      rewrite list_elem_of_singleton. congruence.
  - destruct (decide (s = this)) as [->|Hne].
    + rewrite bool_decide_eq_true_2; [done|]. apply elem_of_cons; by left.
    + rewrite Hs, IH by lia. f_equal. apply bool_decide_ext.
      rewrite elem_of_cons. split; [by right|].
      intros [Heq|Hin]; [congruence|done].
Qed.

End AncestorFacts.

(** X1. [IsInclusiveAncestorOf] tells whether [this] lies on the chain of
    parent links that starts at [scope]; in particular every scope is an
    inclusive ancestor of itself. *)
Theorem IsInclusiveAncestorOf_chain_member
  (fuel : nat) (h : Heap) (this scope : ScopePtr) (chain : list ScopePtr) :
  AncestorChain h scope chain → (length chain ≤ fuel)%nat →
  IsInclusiveAncestorOf fuel h this scope = Done (bool_decide (this ∈ chain))
  ∧ IsInclusiveAncestorOf fuel h scope scope = Done true.
Proof.
  intros Hc Hf. unfold IsInclusiveAncestorOf.
  rewrite !(inclusive_ancestor_loop_spec h fuel _ scope chain Hc Hf).
  split; [done|]. rewrite bool_decide_eq_true_2; [done|].
  destruct (AncestorChain_head h _ _ Hc) as [tl ->]. apply elem_of_cons; by left.
Qed.

(** X2. On scopes with well-formed chains [IsInclusiveAncestorOf] is
    transitive and antisymmetric: it orders the scope forest. *)
Theorem IsInclusiveAncestorOf_order
  (fuel : nat) (h : Heap) (A B C : ScopePtr) (ca cb cc : list ScopePtr) :
  AncestorChain h A ca → AncestorChain h B cb → AncestorChain h C cc →
  (length ca ≤ fuel)%nat → (length cb ≤ fuel)%nat → (length cc ≤ fuel)%nat →
  (IsInclusiveAncestorOf fuel h A B = Done true →
   IsInclusiveAncestorOf fuel h B C = Done true →
   IsInclusiveAncestorOf fuel h A C = Done true)
  ∧ (IsInclusiveAncestorOf fuel h A B = Done true →
     IsInclusiveAncestorOf fuel h B A = Done true →
     A = B).
Proof.
  intros HA HB HC Hfa Hfb Hfc. unfold IsInclusiveAncestorOf.
  rewrite !(inclusive_ancestor_loop_spec h fuel _ B cb HB Hfb).
  rewrite !(inclusive_ancestor_loop_spec h fuel _ C cc HC Hfc).
  rewrite !(inclusive_ancestor_loop_spec h fuel _ A ca HA Hfa).
  split.
  - intros [= HAB%bool_decide_eq_true] [= HBC%bool_decide_eq_true].
    f_equal. apply bool_decide_eq_true.
    destruct (AncestorChain_member h _ _ _ HC HBC) as (l & cb' & -> & HB').
    rewrite (AncestorChain_functional h _ _ _ HB' HB).
    apply elem_of_app. by right.
  - intros [= HAB%bool_decide_eq_true] [= HBA%bool_decide_eq_true].
    destruct (AncestorChain_member h _ _ _ HB HAB) as (l & ca' & Hcb & HA').
    destruct (AncestorChain_member h _ _ _ HA HBA) as (l' & cb' & Hca & HB').
    rewrite (AncestorChain_functional h _ _ _ HA' HA) in Hcb.
    rewrite (AncestorChain_functional h _ _ _ HB' HB) in Hca.
    assert (l = []) as ->.
    { apply (f_equal length) in Hcb, Hca. rewrite length_app in Hcb, Hca.
      destruct l; [done|simpl in *; lia]. }
    simpl in Hcb. subst cb.
    destruct (AncestorChain_head h _ _ HA) as [tl ->].
    destruct (AncestorChain_head h _ _ HB) as [tl' [= -> _]]. done.
Qed.

Section ComparePositionMore.

Variable compareDocumentPosition : NodePtr → option NodePtr → Z.
Context (fuel : nat) (h : Heap).

#[local] Abbreviation ComparePosition :=
  (Forest.ComparePosition compareDocumentPosition fuel h).

Lemma at_index_last (chain : list ScopePtr) top :
  list.last chain = Some top → at_index chain (length chain - 1) = Done top.
Proof.
  intros Hl. unfold at_index. rewrite last_lookup in Hl.
  by rewrite Nat.sub_1_r, Hl.
Qed.

Lemma ComparePosition_tops_differ A B ca cb :
  AncestorChain h A ca → AncestorChain h B cb →
  list.last ca ≠ list.last cb →
  (length ca ≤ fuel)%nat → (length cb ≤ fuel)%nat →
  ComparePosition A B
  = Done (Z.lor kDocumentPositionDisconnected
            kDocumentPositionImplementationSpecific).
Proof.
  intros HA HB Hlast Hfa Hfb. unfold Forest.ComparePosition.
  rewrite decide_False.
  2:{ intros ->. apply Hlast.
      by rewrite (AncestorChain_functional h _ _ _ HA HB). }
  rewrite (ancestor_chain_spec h fuel _ _ HA Hfa).
  rewrite (ancestor_chain_spec h fuel _ _ HB Hfb). simpl.
  destruct (AncestorChain_last h _ _ HA) as [ta Hta].
  destruct (AncestorChain_last h _ _ HB) as [tb Htb].
  rewrite (at_index_last _ _ Hta), (at_index_last _ _ Htb). simpl.
  rewrite decide_True; [done|]. congruence.
Qed.

Lemma ComparePosition_ancestor_sides shorter longer c l :
  AncestorChain h shorter c → AncestorChain h longer (l ++ c) → l ≠ [] →
  (length (l ++ c) ≤ fuel)%nat →
  ComparePosition shorter longer
  = Done (Z.lor kDocumentPositionFollowing kDocumentPositionContainedBy)
  ∧ ComparePosition longer shorter
    = Done (Z.lor kDocumentPositionPreceding kDocumentPositionContains).
Proof.
  intros H1 H2 Hl Hf.
  assert (c ≠ []) as Hc
      by (destruct (AncestorChain_head h _ _ H1) as [? ->]; done).
  assert (shorter ≠ longer) as Hne.
  { intros ->. pose proof (AncestorChain_functional h _ _ _ H1 H2) as Heq.
    apply (f_equal length) in Heq. rewrite length_app in Heq.
    destruct l; [done|simpl in Heq; lia]. }
  assert (0 < length l)%nat as Hlen by (destruct l; [done|simpl; lia]).
  assert (length c ≤ fuel)%nat as Hfc by (rewrite length_app in Hf; lia).
  split.
  - rewrite (ComparePosition_connected compareDocumentPosition fuel h
               shorter longer [] l c); try done.
    simpl. by rewrite decide_True.
  - rewrite (ComparePosition_connected compareDocumentPosition fuel h
               longer shorter l [] c); try done.
    rewrite Nat.min_0_r. simpl. reflexivity.
Qed.

(** The chains first differ at two scopes whose root nodes have different
    hosts. *)
Lemma ComparePosition_host_order this other l1 l2 a b common :
  AncestorChain h this (l1 ++ a :: common) →
  AncestorChain h other (l2 ++ b :: common) →
  a ≠ b → common ≠ [] →
  ParentOrShadowHostNode (RootNode h a) ≠ ParentOrShadowHostNode (RootNode h b) →
  (length (l1 ++ a :: common) ≤ fuel)%nat →
  (length (l2 ++ b :: common) ≤ fuel)%nat →
  ComparePosition this other
  = match ParentOrShadowHostNode (RootNode h a) with
    | Some host1 =>
        Done (compareDocumentPosition host1
                (ParentOrShadowHostNode (RootNode h b)))
    | None => AssertFail
    end.
Proof.
  intros H1 H2 Hab Hcommon Hhosts Hf1 Hf2.
  assert (this ≠ other) as Hne.
  { intros ->. pose proof (AncestorChain_functional h _ _ _ H1 H2) as Heq.
    apply app_inj_2 in Heq as [_ [=]]; done. }
  rewrite (cons_middle a l1 common), app_assoc in H1, Hf1.
  rewrite (cons_middle b l2 common), app_assoc in H2, Hf2.
  rewrite (ComparePosition_connected compareDocumentPosition fuel h
             this other (l1 ++ [a]) (l2 ++ [b]) common); try done.
  rewrite !length_app. simpl length.
  replace ((length l1 + 1) `min` (length l2 + 1))%nat
    with (S (length l1 `min` length l2)) by lia.
  simpl. rewrite !Nat.add_sub. unfold at_index.
  rewrite <- !app_assoc. simpl app. rewrite !list_lookup_middle by done. simpl.
  rewrite decide_True by done.
  unfold compare_children. by rewrite decide_True.
Qed.

End ComparePositionMore.

(** Two lists split into their longest common tail and what is before it. *)
Lemma common_tail_split (c1 : list nat) :
  ∀ c2 : list nat,
    ∃ l1 l2 common,
      c1 = l1 ++ common ∧ c2 = l2 ++ common
      ∧ ∀ x, ¬ (list.last l1 = Some x ∧ list.last l2 = Some x).
Proof.
  induction c1 as [|x c1 IH] using rev_ind; intros c2.
  - exists [], c2, []. split; [done|]. split; [by rewrite app_nil_r|].
    by intros x [[=] _].
  - destruct c2 as [|y c2 _] using rev_ind.
    + exists (c1 ++ [x]), [], []. split; [by rewrite app_nil_r|].
      split; [done|]. by intros z [_ [=]].
    + destruct (decide (x = y)) as [->|Hne].
      * destruct (IH c2) as (l1 & l2 & common & -> & -> & Hd).
        exists l1, l2, (common ++ [y]). by rewrite !app_assoc.
      * exists (c1 ++ [x]), (c2 ++ [y]), []. rewrite !app_nil_r.
        split; [done|]. split; [done|].
        intros z. rewrite !last_snoc. intros [[=] [=]]. congruence.
Qed.

(** X3. Two scopes whose chains end in different document scopes are
    reported as disconnected, with the implementation-specific bit, in both
    directions of the call. *)
Theorem ComparePosition_disconnected
  (compareDocumentPosition : NodePtr → option NodePtr → Z)
  (fuel : nat) (h : Heap) (A B : ScopePtr) (ca cb : list ScopePtr) :
  AncestorChain h A ca → AncestorChain h B cb →
  list.last ca ≠ list.last cb →
  (length ca ≤ fuel)%nat → (length cb ≤ fuel)%nat →
  ComparePosition compareDocumentPosition fuel h A B
  = Done (Z.lor kDocumentPositionDisconnected
            kDocumentPositionImplementationSpecific)
  ∧ ComparePosition compareDocumentPosition fuel h B A
    = Done (Z.lor kDocumentPositionDisconnected
              kDocumentPositionImplementationSpecific).
Proof.
  intros HA HB Hlast Hfa Hfb.
  split; eapply ComparePosition_tops_differ; eauto.
Qed.

(** X4. When the chains, walked from the document end, first differ at two
    shadow roots on different hosts, [ComparePosition] is the document
    position of the second host relative to the first, as
    [compareDocumentPosition] orders them. *)
Theorem ComparePosition_delegates_to_hosts
  (compareDocumentPosition : NodePtr → option NodePtr → Z)
  (fuel : nat) (h : Heap) (this other : ScopePtr)
  (l1 l2 common : list ScopePtr) (childA childB : ScopePtr)
  (ra rb : ShadowRoot) :
  AncestorChain h this (l1 ++ childA :: common) →
  AncestorChain h other (l2 ++ childB :: common) →
  common ≠ [] →
  RootNode h childA = ShadowRootNode ra →
  RootNode h childB = ShadowRootNode rb →
  host ra ≠ host rb →
  (length (l1 ++ childA :: common) ≤ fuel)%nat →
  (length (l2 ++ childB :: common) ≤ fuel)%nat →
  ComparePosition compareDocumentPosition fuel h this other
  = Done (compareDocumentPosition (host ra) (Some (host rb))).
Proof.
  intros H1 H2 Hcommon Hra Hrb Hhost Hf1 Hf2.
  rewrite (ComparePosition_host_order compareDocumentPosition fuel h
             this other l1 l2 childA childB common); try done.
  - by rewrite Hra, Hrb.
  - intros ->. congruence.
  - rewrite Hra, Hrb. simpl. congruence.
Qed.

(** X5. [ComparePosition] agrees with [IsInclusiveAncestorOf]: when [A] is
    an inclusive ancestor of a different scope [B], the call on [A] reports
    [B] as following and contained, and the call on [B] reports [A] as
    preceding and containing. *)
Theorem ComparePosition_of_inclusive_ancestor
  (compareDocumentPosition : NodePtr → option NodePtr → Z)
  (fuel : nat) (h : Heap) (A B : ScopePtr) (cb : list ScopePtr) :
  AncestorChain h B cb → (length cb ≤ fuel)%nat →
  IsInclusiveAncestorOf fuel h A B = Done true → A ≠ B →
  ComparePosition compareDocumentPosition fuel h A B
  = Done (Z.lor kDocumentPositionFollowing kDocumentPositionContainedBy)
  ∧ ComparePosition compareDocumentPosition fuel h B A
    = Done (Z.lor kDocumentPositionPreceding kDocumentPositionContains).
Proof.
  intros HB Hf Hanc Hne. unfold IsInclusiveAncestorOf in Hanc.
  rewrite (inclusive_ancestor_loop_spec h fuel _ B cb HB Hf) in Hanc.
  injection Hanc as Hin%bool_decide_eq_true.
  destruct (AncestorChain_member h _ _ _ HB Hin) as (l & ca & -> & HA).
  apply (ComparePosition_ancestor_sides compareDocumentPosition fuel h A B ca l);
    try done.
  intros ->. simpl in HB.
  destruct (AncestorChain_head h _ _ HA) as [tl ->].
  destruct (AncestorChain_head h _ _ HB) as [tl' [= -> _]]. done.
Qed.

(** X6. On a forest where every scope with a parent is rooted at a shadow
    root with a finite stack of older shadow roots, [ComparePosition]
    returns a verdict for any two scopes with well-formed chains: no
    assertion fails and no loop runs on. *)
Theorem ComparePosition_returns
  (compareDocumentPosition : NodePtr → option NodePtr → Z)
  (fuel : nat) (h : Heap) (A B : ScopePtr) (ca cb : list ScopePtr) :
  AncestorChain h A ca → AncestorChain h B cb →
  (length ca ≤ fuel)%nat → (length cb ≤ fuel)%nat →
  shadow_stacks_bounded fuel h →
  ∃ verdict, ComparePosition compareDocumentPosition fuel h A B = Done verdict.
Proof.
  intros HA HB Hfa Hfb Hwf.
  destruct (common_tail_split ca cb) as (l1 & l2 & common & -> & -> & Hd).
  destruct common as [|c rest].
  - (* no common tail: the document ends differ *)
    rewrite app_nil_r in *. eexists.
    apply (ComparePosition_tops_differ compareDocumentPosition fuel h
             A B l1 l2); try done.
    destruct (AncestorChain_last h _ _ HA) as [ta Hta].
    rewrite Hta. intros Heq. by apply (Hd ta).
  - destruct l1 as [|a l1 _] using rev_ind; [|destruct l2 as [|b l2 _] using rev_ind].
    + (* [A] is the first scope of the common tail *)
      destruct l2 as [|b l2].
      * simpl in *. destruct (AncestorChain_head h _ _ HA) as [tl [= <- _]].
        destruct (AncestorChain_head h _ _ HB) as [tl' [= <- _]].
        eexists. unfold ComparePosition. by rewrite decide_True.
      * eexists.
        apply (ComparePosition_ancestor_sides compareDocumentPosition fuel h
                 A B (c :: rest) (b :: l2)); done.
    + eexists.
      apply (ComparePosition_ancestor_sides compareDocumentPosition fuel h
               B A (c :: rest) (l1 ++ [a])); try done.
      by destruct l1.
    + (* the chains differ at [a] and [b], both below [c] *)
      assert (a ≠ b) as Hab.
      { intros ->. apply (Hd b). by rewrite !last_snoc. }
      rewrite <- !app_assoc in *. simpl in HA, HB, Hfa, Hfb.
      pose proof (AncestorChain_tail h _ _ _ _ HA) as Ha.
      pose proof (AncestorChain_tail h _ _ _ _ HB) as Hb.
      inversion Ha as [|? pa ? Hpa _]; subst.
      inversion Hb as [|? pb ? Hpb _]; subst.
      destruct (Hwf _ _ Hpa) as (ra & _ & Hra & _ & _).
      destruct (Hwf _ _ Hpb) as (rb & stack & Hrb & Hstack & Hlen).
      destruct (decide (host ra = host rb)) as [Hhost|Hhost].
      * eexists.
        by apply (ComparePosition_same_host compareDocumentPosition fuel h
                    A B l1 l2 a b (c :: rest) ra rb stack).
      * eexists.
        rewrite (ComparePosition_host_order compareDocumentPosition fuel h
                   A B l1 l2 a b (c :: rest)); try done.
        -- by rewrite Hra.
        -- rewrite Hra, Hrb. simpl. congruence.
Qed.

(** ** More on [CommonAncestorTreeScope] *)

Lemma ancestor_chain_no_assert fuel h current :
  ancestor_chain fuel h current ≠ AssertFail.
Proof.
  revert current. induction fuel as [|fuel IH]; intros [c|]; simpl; try done.
  specialize (IH (ParentTreeScope h c)).
  by destruct (ancestor_chain fuel h (ParentTreeScope h c)).
Qed.

Lemma pop_matching_sym fuel :
  ∀ (ca cb : list nat) last_ancestor,
    pop_matching fuel ca cb last_ancestor = pop_matching fuel cb ca last_ancestor.
Proof.
  induction fuel as [|fuel IH]; intros ca cb last_ancestor; simpl;
    destruct (back ca) as [a|], (back cb) as [b|]; try done;
    destruct (decide (a = b)) as [->|Hne];
    try (by rewrite decide_True by done);
    by rewrite decide_False by congruence.
Qed.

(** The scopes on both chains lie on their longest common tail. *)
Lemma common_scopes_in_tail h A B l1 l2 common d :
  AncestorChain h A (l1 ++ common) → AncestorChain h B (l2 ++ common) →
  (∀ x, ¬ (list.last l1 = Some x ∧ list.last l2 = Some x)) →
  d ∈ l1 ++ common → d ∈ l2 ++ common → d ∈ common.
Proof.
  intros HA HB Hd HdA HdB.
  destruct (AncestorChain_member h _ _ _ HA HdA) as (la & cd & Ha & Hcd).
  destruct (AncestorChain_member h _ _ _ HB HdB) as (lb & cd' & Hb & Hcd').
  rewrite (AncestorChain_functional h _ _ _ Hcd' Hcd) in Hb. clear Hcd'.
  destruct (AncestorChain_head h _ _ Hcd) as [tl ->].
  apply app_eq_inv in Ha as [(k & -> & Hk)|(k & -> & ->)].
  - destruct k as [|y k _] using rev_ind.
    + simpl in Hk. rewrite <- Hk. apply elem_of_cons; by left.
    + exfalso. rewrite Hk, !app_assoc in Hb.
      apply app_inv_tail in Hb as ->.
      apply (Hd y). by rewrite !app_assoc, !last_snoc.
  - apply elem_of_app. right. apply elem_of_cons; by left.
Qed.

(** X7. The common ancestor of a scope and itself is the scope. *)
Theorem CommonAncestorTreeScope_self
  (fuel : nat) (h : Heap) (S : ScopePtr) (chain : list ScopePtr) :
  AncestorChain h S chain → (length chain ≤ fuel)%nat →
  CommonAncestorTreeScope fuel h S S = Done (Some S).
Proof.
  intros Hc Hf. unfold CommonAncestorTreeScope.
  rewrite (ancestor_chain_spec h fuel _ _ Hc Hf). simpl.
  rewrite (pop_matching_common_tail [] [] chain); [|by intros x [[=] _]|done].
  by destruct (AncestorChain_head h _ _ Hc) as [tl ->].
Qed.

(** X8. [CommonAncestorTreeScope] does not depend on the order of its two
    scopes, whatever the forest and the budget. *)
Theorem CommonAncestorTreeScope_sym (fuel : nat) (h : Heap) (A B : ScopePtr) :
  CommonAncestorTreeScope fuel h A B = CommonAncestorTreeScope fuel h B A.
Proof.
  unfold CommonAncestorTreeScope.
  pose proof (ancestor_chain_no_assert fuel h (Some A)) as HA.
  pose proof (ancestor_chain_no_assert fuel h (Some B)) as HB.
  destruct (ancestor_chain fuel h (Some A)) as [ca| |],
           (ancestor_chain fuel h (Some B)) as [cb| |]; try done.
  simpl. apply pop_matching_sym.
Qed.

(** X9. The scope [CommonAncestorTreeScope] returns is an inclusive
    ancestor of both scopes, and every inclusive ancestor of both is an
    inclusive ancestor of it: it is the lowest common ancestor.  When it
    returns null no scope is an inclusive ancestor of both. *)
Theorem CommonAncestorTreeScope_lowest
  (fuel : nat) (h : Heap) (A B : ScopePtr) (ca cb : list ScopePtr) :
  AncestorChain h A ca → AncestorChain h B cb →
  (length ca ≤ fuel)%nat → (length cb ≤ fuel)%nat →
  (∀ c, CommonAncestorTreeScope fuel h A B = Done (Some c) →
     IsInclusiveAncestorOf fuel h c A = Done true
     ∧ IsInclusiveAncestorOf fuel h c B = Done true
     ∧ ∀ d, IsInclusiveAncestorOf fuel h d A = Done true →
            IsInclusiveAncestorOf fuel h d B = Done true →
            IsInclusiveAncestorOf fuel h d c = Done true)
  ∧ (CommonAncestorTreeScope fuel h A B = Done None →
     ∀ d, ¬ (IsInclusiveAncestorOf fuel h d A = Done true
             ∧ IsInclusiveAncestorOf fuel h d B = Done true)).
Proof.
  intros HA HB Hfa Hfb. unfold CommonAncestorTreeScope, IsInclusiveAncestorOf.
  rewrite (ancestor_chain_spec h fuel _ _ HA Hfa).
  rewrite (ancestor_chain_spec h fuel _ _ HB Hfb). simpl.
  setoid_rewrite (inclusive_ancestor_loop_spec h fuel _ A ca HA Hfa).
  setoid_rewrite (inclusive_ancestor_loop_spec h fuel _ B cb HB Hfb).
  destruct (common_tail_split ca cb) as (l1 & l2 & common & -> & -> & Hd).
  rewrite (pop_matching_common_tail l1 l2 common Hd);
    [|rewrite length_app in Hfa; lia].
  split.
  - intros c Hc. destruct common as [|c' rest]; [done|].
    simpl in Hc. injection Hc as ->.
    pose proof (AncestorChain_tail h _ _ _ _ HA) as Hcc.
    assert (length (c :: rest) ≤ fuel)%nat as Hfc
        by (rewrite length_app in Hfa; lia).
    split; [|split].
    + f_equal. apply bool_decide_eq_true. apply elem_of_app. right.
      apply elem_of_cons; by left.
    + f_equal. apply bool_decide_eq_true. apply elem_of_app. right.
      apply elem_of_cons; by left.
    + intros d [= HdA%bool_decide_eq_true] [= HdB%bool_decide_eq_true].
      rewrite (inclusive_ancestor_loop_spec h fuel _ c _ Hcc Hfc).
      f_equal. apply bool_decide_eq_true.
      by apply (common_scopes_in_tail h A B l1 l2).
  - intros Hnone d [[= HdA%bool_decide_eq_true] [= HdB%bool_decide_eq_true]].
    destruct common as [|c' rest]; [|done].
    pose proof (common_scopes_in_tail h A B l1 l2 [] d HA HB Hd HdA HdB) as Hin.
    by apply elem_of_nil in Hin.
Qed.

(** ** The older-shadow-root-or-parent walk *)

Section OlderOrParentFacts.

Context (h : Heap).

Lemma older_or_parent_loop_spec fuel this start walk :
  OlderOrParentWalk h start walk → (length walk ≤ fuel)%nat →
  IsInclusiveOlderSiblingShadowRootOrAncestorTreeScopeOf fuel h this start
  = Done (bool_decide (this ∈ walk)).
Proof.
  intros Hw. revert fuel. induction Hw as [|s walk Hw IH]; intros fuel Hf.
  - rewrite bool_decide_eq_false_2 by (by intros ?%elem_of_nil).
    by destruct fuel.
  - destruct fuel as [|fuel]; [simpl in Hf; lia|]. simpl in *.
    destruct (decide (s = this)) as [->|Hne].
    + rewrite bool_decide_eq_true_2; [done|]. apply elem_of_cons; by left.
    + rewrite IH by lia. f_equal. apply bool_decide_ext.
      rewrite elem_of_cons. split; [by right|].
      intros [Heq|Hin]; [congruence|done].
Qed.

(** The walk passes every scope of the ancestor chain. *)
Lemma walk_covers_chain start walk :
  OlderOrParentWalk h start walk → generations_share_parent h →
  ∀ s chain, start = Some s → AncestorChain h s chain →
    ∀ a, a ∈ chain → a ∈ walk.
Proof.
  intros Hw Hshare. induction Hw as [|s0 walk Hw IH]; [done|].
  intros s chain [= <-] Hc a Ha.
  apply elem_of_cons.
  destruct (decide (a = s0)) as [|Hne]; [by left|right].
  unfold OlderShadowRootOrParentTreeScope in *.
  destruct (RootNode h s0) as [|sr] eqn:Hroot.
  - (* a document root: the walk goes to the parent *)
    inversion Hc as [? Hs|? p chainp Hs Hp]; subst.
    + apply list_elem_of_singleton in Ha. congruence.
    + apply elem_of_cons in Ha as [?|Ha]; [congruence|].
      rewrite Hs in IH. by apply (IH p chainp).
  - destruct (older_shadow_root sr) as [older|] eqn:Holder.
    + (* the walk goes to the older shadow root, which has the same parent *)
      pose proof (Hshare s0 sr older Hroot Holder) as Hpar.
      inversion Hc as [? Hs|? p chainp Hs Hp]; subst.
      * apply list_elem_of_singleton in Ha. congruence.
      * apply elem_of_cons in Ha as [?|Ha]; [congruence|].
        apply (IH older (older :: chainp)); [done| |].
        -- apply chain_parent with p; [congruence|done].
        -- apply elem_of_cons. by right.
    + inversion Hc as [? Hs|? p chainp Hs Hp]; subst.
      * apply list_elem_of_singleton in Ha. congruence.
      * apply elem_of_cons in Ha as [?|Ha]; [congruence|].
        rewrite Hs in IH. by apply (IH p chainp).
Qed.

(** The walk passes every older shadow root on the host of the scope. *)
Lemma walk_covers_older_stack start walk :
  OlderOrParentWalk h start walk →
  ∀ s sr stack, start = Some s →
    RootNode h s = ShadowRootNode sr →
    OlderStack h (older_shadow_root sr) stack →
    ∀ o, o ∈ stack → o ∈ walk.
Proof.
  induction 1 as [|s0 walk Hw IH]; [done|].
  intros s sr stack [= <-] Hroot Hstack o Ho.
  apply elem_of_cons. right.
  unfold OlderShadowRootOrParentTreeScope in *. rewrite Hroot in *.
  inversion Hstack as [Hnone|o1 sr1 stack' Hroot1 Hstack' Hsome]; subst.
  - by apply elem_of_nil in Ho.
  - rewrite <- Hsome in *. inversion Hw as [|? walk' Hw']; subst.
    apply elem_of_cons in Ho as [->|Ho]; [apply elem_of_cons; by left|].
    by apply (IH o1 sr1 stack').
Qed.

End OlderOrParentFacts.

(** X10. [IsInclusiveOlderSiblingShadowRootOrAncestorTreeScopeOf] tells
    whether [this] is reached from [scope] by older-shadow-root-or-parent
    steps.  The older shadow roots on the host of [scope] are always
    reached; when the generations on one host share their parent scope,
    every inclusive ancestor of [scope] is reached too, so the test extends
    [IsInclusiveAncestorOf]. *)
Theorem older_sibling_or_ancestor_test
  (fuel : nat) (h : Heap) (scope : ScopePtr) (walk : list ScopePtr) :
  OlderOrParentWalk h (Some scope) walk → (length walk ≤ fuel)%nat →
  (∀ this,
     IsInclusiveOlderSiblingShadowRootOrAncestorTreeScopeOf fuel h this
       (Some scope) = Done (bool_decide (this ∈ walk)))
  ∧ (∀ sr stack o,
       RootNode h scope = ShadowRootNode sr →
       OlderStack h (older_shadow_root sr) stack → o ∈ stack →
       IsInclusiveOlderSiblingShadowRootOrAncestorTreeScopeOf fuel h o
         (Some scope) = Done true)
  ∧ (generations_share_parent h →
     ∀ chain a,
       AncestorChain h scope chain → (length chain ≤ fuel)%nat →
       IsInclusiveAncestorOf fuel h a scope = Done true →
       IsInclusiveOlderSiblingShadowRootOrAncestorTreeScopeOf fuel h a
         (Some scope) = Done true).
Proof.
  intros Hw Hf. split; [|split].
  - intros this. by apply older_or_parent_loop_spec.
  - intros sr stack o Hroot Hstack Ho.
    rewrite (older_or_parent_loop_spec h fuel o _ walk Hw Hf).
    f_equal. apply bool_decide_eq_true.
    by apply (walk_covers_older_stack h _ _ Hw scope sr stack).
  - intros Hshare chain a Hc Hfc Hanc. unfold IsInclusiveAncestorOf in Hanc.
    rewrite (inclusive_ancestor_loop_spec h fuel _ scope chain Hc Hfc) in Hanc.
    injection Hanc as Ha%bool_decide_eq_true.
    rewrite (older_or_parent_loop_spec h fuel a _ walk Hw Hf).
    f_equal. apply bool_decide_eq_true.
    by apply (walk_covers_chain h _ _ Hw Hshare scope chain).
Qed.

(** ** More on retargeting *)

Section RetargetMore.

Context (h : Heap) (this : ScopePtr).

Lemma retarget_loop_in_scope fuel :
  ∀ start m,
    retarget_loop fuel h this start = Done (Some m) → GetTreeScope h m = this.
Proof.
  induction fuel as [|fuel IH]; intros [a|] m; simpl; try done.
  destruct (decide (this = GetTreeScope h a)) as [->|Hne].
  - by intros [= ->].
  - apply IH.
Qed.

Lemma AncestorInThisScope_retarget_loop fuel :
  ∀ start,
    AncestorInThisScope fuel h this start = retarget_loop fuel h this start.
Proof.
  induction fuel as [|fuel IH]; intros [n|]; simpl; try done.
  destruct (decide (GetTreeScope h n = this)) as [Heq|Hne].
  - by rewrite decide_True.
  - rewrite decide_False by congruence. rewrite IH.
    unfold OwnerShadowHost.
    destruct (RootNode h (GetTreeScope h n)); simpl; [|done].
    by destruct fuel.
Qed.

End RetargetMore.

(** X11. [AncestorInThisScope] on a node and [Retarget] on the same node
    give the same answer for every budget, and a node they return belongs
    to [this] scope. *)
Theorem AncestorInThisScope_is_Retarget
  (fuel : nat) (h : Heap) (this : ScopePtr) (node : NodePtr) :
  AncestorInThisScope fuel h this (Some node) = Retarget fuel h this node
  ∧ ∀ m, AncestorInThisScope fuel h this (Some node) = Done (Some m) →
         GetTreeScope h m = this.
Proof.
  rewrite AncestorInThisScope_retarget_loop. split; [done|].
  intros m. apply retarget_loop_in_scope.
Qed.

(** X12. When the element that [Retarget] finds in [this] scope hosts a
    strict shadow tree, [AdjustedElement] returns that same element; when
    no element passed on the way, the found one included, hosts a strict
    shadow tree, [AdjustedElement] returns the target unchanged. *)
Theorem AdjustedElement_strict_or_transparent
  (fuel : nat) (h : Heap) (this : ScopePtr) (target : NodePtr)
  (passed : list NodePtr) (m : NodePtr) (rest : list NodePtr) :
  HostChain h (Some target) (passed ++ m :: rest) →
  (length (passed ++ m :: rest) ≤ fuel)%nat →
  Forall (λ a, GetTreeScope h a ≠ this) passed → GetTreeScope h m = this →
  (is_strict_host h m = true →
   AdjustedElement fuel h this target = Done (Some m)
   ∧ AdjustedElement fuel h this target = Retarget fuel h this target)
  ∧ (Forall (λ a, is_strict_host h a = false) (passed ++ [m]) →
     AdjustedElement fuel h this target = Done (Some target)).
Proof.
  intros Hc Hf Hp Hm.
  assert (length passed < fuel)%nat as Hlt
      by (rewrite length_app in Hf; simpl in Hf; lia).
  unfold AdjustedElement.
  rewrite (adjusted_loop_found h this fuel target _ passed m rest Hc Hlt Hp Hm).
  split.
  - intros Hstrict.
    assert (remembered h target (passed ++ [m]) = m) as ->.
    { unfold remembered. rewrite List.filter_app. simpl. rewrite Hstrict.
      by rewrite last_snoc. }
    split; [done|]. unfold Retarget.
    rewrite (retarget_loop_spec h this fuel _ _ Hc Hf).
    by rewrite filter_first_in_scope.
  - intros Hnone. unfold remembered.
    replace (List.filter (is_strict_host h) (passed ++ [m])) with (@nil nat);
      [done|].
    induction Hnone as [|a l Ha _ IH]; [done|]. simpl. by rewrite Ha.
Qed.

(** X13. The element [AdjustedElement] returns is one of the elements
    passed on the walk from the target up to the element that [Retarget]
    finds, both included. *)
Theorem AdjustedElement_on_walk
  (fuel : nat) (h : Heap) (this : ScopePtr) (target : NodePtr)
  (passed : list NodePtr) (m : NodePtr) (rest : list NodePtr) :
  HostChain h (Some target) (passed ++ m :: rest) →
  (length (passed ++ m :: rest) ≤ fuel)%nat →
  Forall (λ a, GetTreeScope h a ≠ this) passed → GetTreeScope h m = this →
  ∃ adjusted,
    AdjustedElement fuel h this target = Done (Some adjusted)
    ∧ adjusted ∈ passed ++ [m].
Proof.
  intros Hc Hf Hp Hm.
  assert (length passed < fuel)%nat as Hlt
      by (rewrite length_app in Hf; simpl in Hf; lia).
  eexists. split.
  - apply (adjusted_loop_found h this fuel target _ passed m rest Hc Hlt Hp Hm).
  - unfold remembered.
    destruct (list.last (List.filter (is_strict_host h) (passed ++ [m])))
      as [x|] eqn:Hlast; simpl.
    + apply last_Some_elem_of in Hlast. apply list_elem_of_In in Hlast.
      apply List.filter_In in Hlast as [Hin _]. by apply list_elem_of_In.
    + assert (∃ tl, passed ++ m :: rest = target :: tl) as [tl Heq]
          by (inversion Hc; eauto).
      destruct passed as [|p passed]; simpl in *;
        injection Heq as -> _; apply elem_of_cons; by left.
Qed.

(** ** [AdjustedFocusedElement] *)

(** X14. Without a focused element (and without a frame owner to stand in
    for it) [AdjustedFocusedElement] is null.  In a strictly-encapsulated
    scope it is [Retarget] of the focused element: the check that the
    retargeted element belongs to [this] scope never fails. *)
Theorem AdjustedFocusedElement_strict_scope
  (FocusedElement : ScopePtr → option NodePtr) (GetPage : ScopePtr → bool)
  (FocusedFrameOwnerElement : ScopePtr → option NodePtr)
  (NodeEventContexts : NodePtr → list NodeEventContext)
  (fuel : nat) (h : Heap) (this : ScopePtr) :
  (focused_or_frame_owner FocusedElement GetPage FocusedFrameOwnerElement
     (GetDocument h this) = None →
   AdjustedFocusedElement FocusedElement GetPage FocusedFrameOwnerElement
     NodeEventContexts fuel h this = Done None)
  ∧ (∀ element,
       focused_or_frame_owner FocusedElement GetPage FocusedFrameOwnerElement
         (GetDocument h this) = Some element →
       IsInV1ShadowTree (RootNode h this) = true →
       AdjustedFocusedElement FocusedElement GetPage FocusedFrameOwnerElement
         NodeEventContexts fuel h this
       = Retarget fuel h this element).
Proof.
  unfold AdjustedFocusedElement. split.
  - by intros ->.
  - intros element -> ->.
    destruct (Retarget fuel h this element) as [[r|]| |] eqn:Hr; simpl; try done.
    apply retarget_loop_in_scope in Hr. by rewrite decide_True.
Qed.

(** ** More on [SetParentTreeScope] and the constructors *)

Section ReparentFacts.

Context (h : Heap) (this new_parent_scope : ScopePtr).

#[local] Abbreviation reparented := (Forest.reparented h this new_parent_scope).

Lemma SetParentTreeScope_done :
  IsDocumentNode (RootNode h this) = false →
  SetParentTreeScope h this new_parent_scope = Done reparented.
Proof. intros Hdoc. unfold SetParentTreeScope. by rewrite Hdoc. Qed.

Lemma reparented_parent : ParentTreeScope reparented this = Some new_parent_scope.
Proof.
  unfold ParentTreeScope, Forest.reparented. simpl. by rewrite !fn_lookup_insert.
Qed.


Lemma reparented_other s : s ≠ this → scopes reparented s = scopes h s.
Proof.
  intros Hne. unfold Forest.reparented. simpl. by rewrite !fn_lookup_insert_ne.
Qed.

Lemma reparented_chain p chain :
  AncestorChain h p chain → this ∉ chain → AncestorChain reparented p chain.
Proof.
  induction 1 as [s Hs|s q chain Hs Hc IH]; intros Hnot.
  - apply chain_document. unfold ParentTreeScope in *.
    rewrite reparented_other; [done|]. intros ->. apply Hnot.
    apply elem_of_cons; by left.
  - apply not_elem_of_cons in Hnot as [Hne Hnot].
    apply chain_parent with q; [|by apply IH]. unfold ParentTreeScope in *.
    by rewrite reparented_other.
Qed.

(** Below a scope on the way to [this], every budget runs out once it runs
    out at [this]. *)
Lemma reparented_cycle_path l :
  ∀ s rest fuel,
    AncestorChain h s (l ++ this :: rest) → this ∉ l →
    (∀ fuel', (fuel' ≤ fuel)%nat →
       ancestor_chain fuel' reparented (Some this) = NoFuel) →
    ancestor_chain fuel reparented (Some s) = NoFuel.
Proof.
  induction l as [|x l IH]; intros s rest fuel Hc Hnot Hthis.
  - destruct (AncestorChain_head h _ _ Hc) as [tl [= <- _]]. by apply Hthis.
  - apply not_elem_of_cons in Hnot as [Hne Hnot].
    destruct fuel as [|fuel]; [done|]. simpl in Hc.
    inversion Hc as [? Hs Heq|? q chain Hs Hq]; subst; [by destruct l|].
    simpl. unfold ParentTreeScope at 1. rewrite reparented_other by done.
    fold (ParentTreeScope h x). rewrite Hs.
    rewrite (IH q rest fuel); [done|done|done|].
    intros fuel' Hle. apply Hthis. lia.
Qed.

End ReparentFacts.

(** X15. After [SetParentTreeScope] under a scope whose chain does not
    pass [this], the chain of [this] is [this] followed by the chain of
    the new parent; the new parent is then an inclusive ancestor of [this]
    and their common ancestor. *)
Theorem SetParentTreeScope_chain
  (h : Heap) (this new_parent_scope : ScopePtr) (cp : list ScopePtr) :
  IsDocumentNode (RootNode h this) = false →
  AncestorChain h new_parent_scope cp → this ∉ cp →
  ∃ h', SetParentTreeScope h this new_parent_scope = Done h'
    ∧ AncestorChain h' this (this :: cp)
    ∧ ∀ fuel, (length cp < fuel)%nat →
        IsInclusiveAncestorOf fuel h' new_parent_scope this = Done true
        ∧ CommonAncestorTreeScope fuel h' this new_parent_scope
          = Done (Some new_parent_scope).
Proof.
  intros Hdoc Hcp Hnot. eexists. split; [by apply SetParentTreeScope_done|].
  pose proof (reparented_chain h this new_parent_scope _ _ Hcp Hnot) as Hcp'.
  assert (AncestorChain (reparented h this new_parent_scope) this (this :: cp))
    as Hc.
  { apply chain_parent with new_parent_scope; [apply reparented_parent|done]. }
  split; [done|]. intros fuel Hf.
  destruct (AncestorChain_head _ _ _ Hcp') as [tl ->].
  split.
  - unfold IsInclusiveAncestorOf.
    rewrite (inclusive_ancestor_loop_spec _ fuel _ this _ Hc) by (simpl in *; lia).
    f_equal. apply bool_decide_eq_true. apply elem_of_cons. right.
    apply elem_of_cons. by left.
  - unfold CommonAncestorTreeScope.
    rewrite (ancestor_chain_spec _ fuel _ _ Hc) by (simpl in *; lia).
    rewrite (ancestor_chain_spec _ fuel _ _ Hcp') by (simpl in *; lia). simpl.
    rewrite (pop_matching_common_tail [this] [] (new_parent_scope :: tl));
      [done|by intros x [_ [=]]|simpl in *; lia].
Qed.

(** X16. [SetParentTreeScope] does not look for cycles: when the chain of
    the new parent passes [this] (the new parent is [this] or lies below
    it), the call still returns, and afterwards the loop that collects the
    ancestor chain of [this] never ends, whatever the budget; so neither
    do [ComparePosition] and [CommonAncestorTreeScope] on [this]. *)
Theorem SetParentTreeScope_cycle
  (compareDocumentPosition : NodePtr → option NodePtr → Z)
  (h : Heap) (this new_parent_scope : ScopePtr) (cp : list ScopePtr) :
  IsDocumentNode (RootNode h this) = false →
  AncestorChain h new_parent_scope cp → this ∈ cp →
  ∃ h', SetParentTreeScope h this new_parent_scope = Done h'
    ∧ ∀ fuel,
        ancestor_chain fuel h' (Some this) = NoFuel
        ∧ (∀ other, CommonAncestorTreeScope fuel h' this other = NoFuel)
        ∧ (∀ other, other ≠ this →
             ComparePosition compareDocumentPosition fuel h' this other
             = NoFuel).
Proof.
  intros Hdoc Hcp Hin. eexists. split; [by apply SetParentTreeScope_done|].
  apply list_elem_of_split_l in Hin as (l & rest & -> & Hnot).
  assert (∀ fuel,
            ancestor_chain fuel (reparented h this new_parent_scope)
              (Some this) = NoFuel) as Hloop.
  { intros fuel. induction fuel as [fuel IH] using lt_wf_ind.
    destruct fuel as [|fuel]; [done|].
    cbn [ancestor_chain]. rewrite reparented_parent.
    rewrite (reparented_cycle_path h this new_parent_scope l _ rest fuel);
      [done|done|done|].
    intros fuel' Hle. apply IH. lia. }
  intros fuel. split; [apply Hloop|]. split.
  - intros other. unfold CommonAncestorTreeScope. by rewrite Hloop.
  - intros other Hne. unfold ComparePosition.
    rewrite decide_False by done. by rewrite Hloop.
Qed.


(** ** Sequences of calls on the identifier index *)

Section IndexSequences.

Variable tree_position : NodePtr → nat.

#[local] Abbreviation scope_after := (Forest.scope_after tree_position).
#[local] Abbreviation scope_after_calls :=
  (Forest.scope_after_calls tree_position).

Lemma scope_after_with_index c this :
  is_Some (elements_by_id_ this) →
  is_Some (elements_by_id_ (scope_after c this))
  ∧ id_target_observer_registry_ (scope_after c this)
    = id_target_observer_registry_ this
      ++ (if is_mutation c then [call_key c] else []).
Proof.
  intros [m Hm]. destruct c as [key|key|key element|key element]; simpl.
  - rewrite Hm, app_nil_r. eauto.
  - rewrite Hm, app_nil_r. eauto.
  - eauto.
  - unfold RemoveElementById. rewrite Hm. simpl. eauto.
Qed.

Lemma scope_after_frame c this :
  root_node_ (scope_after c this) = root_node_ this
  ∧ document_ (scope_after c this) = document_ this
  ∧ parent_tree_scope_ (scope_after c this) = parent_tree_scope_ this.
Proof.
  destruct c as [key|key|key element|key element]; simpl; try done.
  unfold RemoveElementById. by destruct (elements_by_id_ this).
Qed.

End IndexSequences.

(** X18. Over any sequence of index calls: once a scope has an identifier
    index it keeps one, and then every add and every remove of the sequence
    is notified, in order, with its key; a scope without an index is left
    exactly as it is by any sequence without an add; and no sequence
    changes the root node, the document or the parent of the scope. *)
Theorem index_call_sequences
  (tree_position : NodePtr → nat) (calls : list IndexCall) (this : TreeScope) :
  (is_Some (elements_by_id_ this) →
   is_Some (elements_by_id_ (scope_after_calls tree_position calls this))
   ∧ id_target_observer_registry_ (scope_after_calls tree_position calls this)
     = id_target_observer_registry_ this
       ++ map call_key (List.filter is_mutation calls))
  ∧ (elements_by_id_ this = None →
     Forall (λ c, is_add_call c = false) calls →
     scope_after_calls tree_position calls this = this)
  ∧ (root_node_ (scope_after_calls tree_position calls this) = root_node_ this
     ∧ document_ (scope_after_calls tree_position calls this) = document_ this
     ∧ parent_tree_scope_ (scope_after_calls tree_position calls this)
       = parent_tree_scope_ this).
Proof.
  unfold scope_after_calls. revert this.
  induction calls as [|c calls IH]; intros this; simpl.
  - split; [|done]. intros Hsome. by rewrite app_nil_r.
  - destruct (IH (scope_after tree_position c this)) as (IHsome & IHnone & IHframe).
    split; [|split].
    + intros Hsome.
      destruct (scope_after_with_index tree_position c this Hsome) as [Hs Hlog].
      destruct (IHsome Hs) as [Hs' Hlog']. split; [done|].
      rewrite Hlog', Hlog, <- app_assoc. f_equal.
      by destruct (is_mutation c).
    + intros Hnone Hall. inversion Hall as [|? ? Hc Hrest]; subst.
      assert (scope_after tree_position c this = this) as Hsame.
      { destruct c; simpl in *; try done.
        unfold RemoveElementById. by rewrite Hnone. }
      rewrite Hsame. rewrite Hsame in IHnone. by apply IHnone.
    + destruct (scope_after_frame tree_position c this) as (Hr & Hd & Hp).
      destruct IHframe as (-> & -> & ->). done.
Qed.

(** ** Hit-test results mapped into a scope *)

Lemma no_adjacent_duplicates_snoc (l : list nat) n :
  no_adjacent_duplicates l → list.last l ≠ Some n →
  no_adjacent_duplicates (l ++ [n]).
Proof.
  intros Hl Hlast l1 x l2 Heq.
  destruct l2 as [|y l2 _] using rev_ind.
  - change (l1 ++ [x; x]) with (l1 ++ [x] ++ [x]) in Heq.
    rewrite app_assoc in Heq. apply app_inj_tail in Heq as [-> ->].
    apply Hlast. by rewrite last_snoc.
  - change (l1 ++ x :: x :: l2 ++ [y]) with (l1 ++ (x :: x :: l2) ++ [y]) in Heq.
    rewrite app_assoc in Heq. apply app_inj_tail in Heq as [-> _].
    by apply (Hl l1 x l2).
Qed.

Section HitTestFacts.

Variable is_element_node : NodePtr → bool.
Variable is_pseudo_element : NodePtr → bool.
Variable is_text_node : NodePtr → bool.
Variable is_document_node : NodePtr → bool.
Variable is_shadow_root_node : NodePtr → bool.
Variable parent_or_shadow_host_node : NodePtr → option NodePtr.
Variable HitTestInDocument_InnerNode : ScopePtr → Z → Z → option NodePtr.
Variable documentElement : ScopePtr → option NodePtr.
Context (fuel : nat) (h : Heap) (this : ScopePtr).

#[local] Abbreviation hit_test_result_loop :=
  (Forest.hit_test_result_loop is_element_node is_pseudo_element is_text_node
     is_document_node parent_or_shadow_host_node fuel h this).

#[local] Abbreviation element_of_this_scope :=
  (Forest.element_of_this_scope is_element_node h this).

Lemma AncestorInThisScope_returns start :
  host_chains_bounded fuel h →
  ∃ r, AncestorInThisScope fuel h this start = Done r
       ∧ ∀ n, r = Some n → GetTreeScope h n = this.
Proof.
  intros Hwf. rewrite AncestorInThisScope_retarget_loop.
  destruct start as [n|].
  - destruct (Hwf n) as (chain & Hc & Hf).
    rewrite (retarget_loop_spec h this fuel _ chain Hc Hf). eexists.
    split; [done|]. intros m Hm.
    apply (retarget_loop_in_scope h this fuel (Some n)).
    by rewrite (retarget_loop_spec h this fuel _ chain Hc Hf), Hm.
  - exists None. split; [by destruct fuel|done].
Qed.

Lemma hit_test_result_loop_spec nodes :
  host_chains_bounded fuel h →
  ∀ elements,
    no_adjacent_duplicates elements → Forall element_of_this_scope elements →
    ∃ elements',
      hit_test_result_loop nodes elements (list.last elements)
      = Done (elements', list.last elements')
      ∧ no_adjacent_duplicates elements'
      ∧ Forall element_of_this_scope elements'.
Proof.
  intros Hwf. induction nodes as [|rect_based_node nodes IH];
    intros elements Hnodup Hall; simpl.
  - eauto.
  - destruct rect_based_node as [node|]; [|by apply IH].
    destruct (negb (is_element_node node) || is_document_node node);
      [by apply IH|].
    destruct (AncestorInThisScope_returns
                (if is_pseudo_element node || is_text_node node
                 then parent_or_shadow_host_node node else Some node) Hwf)
      as (r & -> & Hscope).
    simpl. destruct (decide (r = list.last elements)) as [|Hne]; [by apply IH|].
    destruct r as [n|]; [|by apply IH].
    destruct (is_element_node n) eqn:Helem; [|by apply IH].
    destruct (IH (elements ++ [n])) as (elements' & Hrun & Hnodup' & Hall').
    + apply no_adjacent_duplicates_snoc; [done|congruence].
    + apply Forall_app. split; [done|]. constructor; [|done].
      split; [by apply Hscope|done].
    + rewrite last_snoc in Hrun. eauto.
Qed.

End HitTestFacts.

(** X19. On a forest with finite host chains [ElementsFromHitTestResult]
    returns; no entry of its vector is followed by the same entry; every
    entry is an element of [this] scope or the document element; and for a
    document scope with a document element the vector ends with it. *)
Theorem ElementsFromHitTestResult_pruned
  (is_element_node is_pseudo_element is_text_node is_document_node
     : NodePtr → bool)
  (parent_or_shadow_host_node : NodePtr → option NodePtr)
  (documentElement : ScopePtr → option NodePtr)
  (fuel : nat) (h : Heap) (this : ScopePtr) (result : list (option NodePtr)) :
  host_chains_bounded fuel h →
  ∃ elements,
    ElementsFromHitTestResult is_element_node is_pseudo_element is_text_node
      is_document_node parent_or_shadow_host_node documentElement
      fuel h this result = Done elements
    ∧ no_adjacent_duplicates elements
    ∧ Forall (λ e, (GetTreeScope h e = this ∧ is_element_node e = true)
                   ∨ documentElement this = Some e) elements
    ∧ (IsDocumentNode (RootNode h this) = true →
       ∀ root_element, documentElement this = Some root_element →
         list.last elements = Some root_element).
Proof.
  intros Hwf. unfold ElementsFromHitTestResult.
  destruct (hit_test_result_loop_spec is_element_node is_pseudo_element
              is_text_node is_document_node parent_or_shadow_host_node
              fuel h this result Hwf []) as (elements & Hrun & Hnodup & Hall).
  { intros l1 x l2 Heq. by destruct l1. }
  { constructor. }
  simpl in Hrun. rewrite Hrun. simpl.
  assert (Forall (λ e, (GetTreeScope h e = this ∧ is_element_node e = true)
                       ∨ documentElement this = Some e) elements) as Hall'.
  { eapply list.Forall_impl; [exact Hall|]. intros e He. by left. }
  destruct (IsDocumentNode (RootNode h this)) eqn:Hdoc;
    [|by exists elements].
  destruct (documentElement this) as [root_element|] eqn:Hroot;
    [|by exists elements].
  destruct (bool_decide (elements = [])
            || bool_decide (list.last elements ≠ Some root_element)) eqn:Hpush.
  - eexists. split; [done|]. split; [|split].
    + apply no_adjacent_duplicates_snoc; [done|].
      apply orb_true_iff in Hpush as [->%bool_decide_eq_true|Hl%bool_decide_eq_true];
        done.
    + apply Forall_app. split; [done|]. constructor; [by right|done].
    + intros _ r [= <-]. by rewrite last_snoc.
  - eexists. split; [done|]. split; [done|]. split; [done|].
    intros _ r [= <-].
    apply orb_false_iff in Hpush as [_ Hl%bool_decide_eq_false].
    by destruct (decide (list.last elements = Some root_element)).
Qed.

(** X20. [HitTestPoint] is null when the hit test finds no node, and an
    element it returns is an element node of [this] scope. *)
Theorem HitTestPoint_in_scope
  (is_element_node is_pseudo_element is_text_node is_document_node
     is_shadow_root_node : NodePtr → bool)
  (parent_or_shadow_host_node : NodePtr → option NodePtr)
  (HitTestInDocument_InnerNode : ScopePtr → Z → Z → option NodePtr)
  (fuel : nat) (h : Heap) (this : ScopePtr) (x y : Z) :
  (HitTestInDocument_InnerNode (GetDocument h this) x y = None →
   HitTestPoint is_element_node is_pseudo_element is_text_node
     is_document_node is_shadow_root_node parent_or_shadow_host_node
     HitTestInDocument_InnerNode fuel h this x y = Done None)
  ∧ ∀ e,
      HitTestPoint is_element_node is_pseudo_element is_text_node
        is_document_node is_shadow_root_node parent_or_shadow_host_node
        HitTestInDocument_InnerNode fuel h this x y = Done (Some e) →
      GetTreeScope h e = this ∧ is_element_node e = true.
Proof.
  unfold HitTestPoint. split; [by intros ->|]. intros e.
  destruct (HitTestInDocument_InnerNode (GetDocument h this) x y) as [node|];
    [|done].
  destruct (is_document_node node); [done|].
  set (start := if is_pseudo_element node || is_text_node node
                then parent_or_shadow_host_node node else Some node).
  destruct (match start with
            | Some n => is_element_node n || is_shadow_root_node n
            | None => true
            end); [|done].
  destruct (AncestorInThisScope fuel h this start) as [[n|]| |] eqn:Hanc;
    simpl; try done.
  destruct (is_element_node n) eqn:Helem; [|done]. intros [= <-].
  split; [|done]. rewrite AncestorInThisScope_retarget_loop in Hanc.
  by apply retarget_loop_in_scope in Hanc.
Qed.

(** ** More on the access-key scan *)

Module ScanMore.

Import Scan.

Lemma visit_without_shadow_roots e :
  Forall (λ d, shadow_root_stack d = []) (inclusive_descendants e) →
  visit_element e = inclusive_descendants e.
Proof.
  induction e as [id a srs cs _ IH|cs _]
    using Element_tree_ind with (Q := λ _, True); [|done].
  intros Hfree. simpl in *. inversion Hfree as [|? ? Hsrs Hcs]; subst.
  simpl in Hsrs. subst srs. simpl. f_equal. clear Hfree.
  induction IH as [|c cs Hc _ IHcs]; [done|]. simpl in *.
  apply Forall_app in Hcs as [Hc1 Hcs]. rewrite Hc by done. f_equal.
  by apply IHcs.
Qed.

(** X21. For the empty key [GetElementByAccessKey] is null.  For a
    non-empty key an element it returns is one of the visited elements and
    its [accesskey] matches, and it returns an element whenever some
    element of the scope or of a shadow tree nested in it matches. *)
Theorem GetElementByAccessKey_finds_match
  (DeprecatedEqualIgnoringCase : option string → string → bool)
  (key : string) (this : TreeScope) :
  GetElementByAccessKey DeprecatedEqualIgnoringCase "" this = None
  ∧ (key ≠ "" →
     (∀ e, GetElementByAccessKey DeprecatedEqualIgnoringCase key this = Some e →
        e ∈ visit_scope this
        ∧ matches DeprecatedEqualIgnoringCase key e = true)
     ∧ (∀ e, e ∈ visit_scope this →
          matches DeprecatedEqualIgnoringCase key e = true →
          is_Some (GetElementByAccessKey DeprecatedEqualIgnoringCase key this))).
Proof.
  split; [by destruct this|]. intros Hkey.
  rewrite (ScanFacts.GetElementByAccessKey_visit _ _ Hkey). split.
  - intros e He. apply last_Some_elem_of, list_elem_of_In in He.
    apply List.filter_In in He as [Hin Hm]. split; [|done].
    by apply list_elem_of_In.
  - intros e Hin Hm. apply last_is_Some. intros Hnil.
    assert (In e (List.filter (matches DeprecatedEqualIgnoringCase key)
                    (visit_scope this))) as Hf.
    { apply List.filter_In. split; [|done]. by apply list_elem_of_In. }
    by rewrite Hnil in Hf.
Qed.

(** X22. In a scope where no element hosts a shadow root, the scan visits
    the elements in document order, and for a non-empty key
    [GetElementByAccessKey] returns the last matching element of the
    document order. *)
Theorem GetElementByAccessKey_document_order
  (DeprecatedEqualIgnoringCase : option string → string → bool)
  (key : string) (this : TreeScope) :
  key ≠ "" →
  Forall (λ d, shadow_root_stack d = []) (DescendantsOf this) →
  visit_scope this = DescendantsOf this
  ∧ GetElementByAccessKey DeprecatedEqualIgnoringCase key this
    = list.last (List.filter (matches DeprecatedEqualIgnoringCase key)
                   (DescendantsOf this)).
Proof.
  intros Hkey Hfree.
  assert (visit_scope this = DescendantsOf this) as Hvisit.
  { destruct this as [cs]. unfold DescendantsOf in *. simpl in *.
    induction cs as [|c cs IH]; [done|]. simpl in *.
    apply Forall_app in Hfree as [Hc Hcs].
    by rewrite visit_without_shadow_roots, IH. }
  split; [done|].
  by rewrite (ScanFacts.GetElementByAccessKey_visit _ _ Hkey), Hvisit.
Qed.

End ScanMore.

(** ** Image-map names *)


Lemma find_char_none_app c (prefix rest : string) :
  find_char c (prefix ++ rest)%string = None → find_char c prefix = None.
Proof.
  induction prefix as [|a prefix IH]; simpl; [done|].
  destruct (decide (a = c)); [done|].
  destruct (find_char c (prefix ++ rest)%string) eqn:Hp; [done|].
  intros _. by rewrite IH.
Qed.



(** * The further properties on the sample forests *)

Ltac forest_cases s :=
  do 15 (try (destruct s as [|s])).

Lemma forest_hosts_bounded : host_chains_bounded 8 forest.
Proof.
  intros n. forest_cases n;
    (eexists; split; [repeat (apply hosts_next; cbn); apply hosts_end|cbn; lia]).
Defined.

Lemma forest_stacks_bounded : shadow_stacks_bounded 8 forest.
Proof.
  intros s p Hp. forest_cases s; cbn in Hp; try discriminate Hp;
    eexists; eexists; (split; [reflexivity|]); cbn.
  - split; [apply older_end|cbn; lia].
  - split; [eapply older_next; [reflexivity|apply older_end]|cbn; lia].
  - split; [apply older_end|cbn; lia].
Defined.

Lemma forest_generations : generations_share_parent forest.
Proof.
  intros s sr older Hroot Holder.
  forest_cases s; cbn in Hroot; try discriminate Hroot;
    injection Hroot as <-; cbn in Holder; try discriminate Holder.
  injection Holder as <-. reflexivity.
Defined.


Lemma forest_walk_2 : OlderOrParentWalk forest (Some 2%nat) [2%nat; 1%nat; 0%nat].
Proof. repeat (apply walk_next; cbn). apply walk_end. Defined.

Lemma sibling_chain_0 : AncestorChain forest_with_sibling 0 [0%nat].
Proof. by constructor. Defined.

Lemma sibling_chain_3 : AncestorChain forest_with_sibling 3 [3%nat; 1%nat; 0%nat].
Proof.
  eapply chain_parent; [reflexivity|].
  eapply chain_parent; [reflexivity|]. exact sibling_chain_0.
Defined.

Lemma sibling_chain_5 : AncestorChain forest_with_sibling 5 [5%nat; 0%nat].
Proof. eapply chain_parent; [reflexivity|]. exact sibling_chain_0. Defined.

Lemma IsInclusiveAncestorOf_chain_member_witness :
  IsInclusiveAncestorOf 8 forest 1 3 = Done true
  ∧ IsInclusiveAncestorOf 8 forest 2 3 = Done false
  ∧ IsInclusiveAncestorOf 8 forest 3 3 = Done true.
Proof.
  split; [|split].
  - apply (IsInclusiveAncestorOf_chain_member 8 forest 1 3 _ forest_chain_3).
    cbn; lia.
  - apply (IsInclusiveAncestorOf_chain_member 8 forest 2 3 _ forest_chain_3).
    cbn; lia.
  - apply (IsInclusiveAncestorOf_chain_member 8 forest 3 3 _ forest_chain_3).
    cbn; lia.
Defined.

Lemma IsInclusiveAncestorOf_order_witness :
  IsInclusiveAncestorOf 8 forest 0 3 = Done true.
Proof.
  destruct (IsInclusiveAncestorOf_order 8 forest 0 1 3 _ _ _
              forest_chain_0 forest_chain_1 forest_chain_3)
    as [Htrans _]; [cbn; lia|cbn; lia|cbn; lia|].
  apply Htrans; reflexivity.
Defined.

Lemma ComparePosition_disconnected_witness :
  ComparePosition no_order 8 forest 3 4
  = Done (Z.lor kDocumentPositionDisconnected
            kDocumentPositionImplementationSpecific)
  ∧ ComparePosition no_order 8 forest 4 3
    = Done (Z.lor kDocumentPositionDisconnected
              kDocumentPositionImplementationSpecific).
Proof.
  apply (ComparePosition_disconnected no_order 8 forest 3 4 _ _
           forest_chain_3 forest_chain_4); [discriminate|cbn; lia|cbn; lia].
Defined.

(** Scope 3 lies below host 10, scope 5 below host 15. *)
Lemma ComparePosition_delegates_to_hosts_witness :
  ComparePosition host_order 8 forest_with_sibling 3 5
  = Done kDocumentPositionFollowing.
Proof.
  apply (ComparePosition_delegates_to_hosts host_order 8 forest_with_sibling
           3 5 [3%nat] [] [0%nat] 1%nat 5%nat
           {| host := 10; older_shadow_root := None; type := Strict |}
           {| host := 15; older_shadow_root := None; type := Strict |}).
  - exact sibling_chain_3.
  - exact sibling_chain_5.
  - discriminate.
  - reflexivity.
  - reflexivity.
  - discriminate.
  - cbn; lia.
  - cbn; lia.
Defined.

Lemma ComparePosition_of_inclusive_ancestor_witness :
  ComparePosition no_order 8 forest 1 3
  = Done (Z.lor kDocumentPositionFollowing kDocumentPositionContainedBy)
  ∧ ComparePosition no_order 8 forest 3 1
    = Done (Z.lor kDocumentPositionPreceding kDocumentPositionContains).
Proof.
  apply (ComparePosition_of_inclusive_ancestor no_order 8 forest 1 3 _
           forest_chain_3); [cbn; lia|reflexivity|discriminate].
Defined.

Lemma ComparePosition_returns_witness :
  ∃ verdict, ComparePosition no_order 8 forest 3 2 = Done verdict.
Proof.
  apply (ComparePosition_returns no_order 8 forest 3 2 _ _
           forest_chain_3 forest_chain_2); [cbn; lia|cbn; lia|].
  exact forest_stacks_bounded.
Defined.

Lemma CommonAncestorTreeScope_self_witness :
  CommonAncestorTreeScope 8 forest 3 3 = Done (Some 3%nat).
Proof.
  apply (CommonAncestorTreeScope_self 8 forest 3 _ forest_chain_3). cbn; lia.
Defined.

Lemma CommonAncestorTreeScope_lowest_witness :
  IsInclusiveAncestorOf 8 forest 0 3 = Done true
  ∧ IsInclusiveAncestorOf 8 forest 0 2 = Done true.
Proof.
  destruct (CommonAncestorTreeScope_lowest 8 forest 3 2 _ _
              forest_chain_3 forest_chain_2) as [Hlow _];
    [cbn; lia|cbn; lia|].
  destruct (Hlow 0%nat eq_refl) as (H3 & H2 & _). by split.
Defined.

Lemma older_sibling_or_ancestor_test_witness :
  IsInclusiveOlderSiblingShadowRootOrAncestorTreeScopeOf 8 forest 1
    (Some 2%nat) = Done true
  ∧ IsInclusiveOlderSiblingShadowRootOrAncestorTreeScopeOf 8 forest 0
      (Some 2%nat) = Done true
  ∧ IsInclusiveOlderSiblingShadowRootOrAncestorTreeScopeOf 8 forest 3
      (Some 2%nat) = Done false.
Proof.
  destruct (older_sibling_or_ancestor_test 8 forest 2 _ forest_walk_2)
    as (Hwalk & Holder & Hanc); [cbn; lia|].
  split; [|split].
  - apply (Holder {| host := 10; older_shadow_root := Some 1%nat; type := Strict |}
             [1%nat] 1%nat); [reflexivity| |apply elem_of_cons; by left].
    eapply older_next; [reflexivity|apply older_end].
  - apply (Hanc forest_generations _ 0%nat forest_chain_2);
      [cbn; lia|reflexivity].
  - apply Hwalk.
Defined.

Lemma AncestorInThisScope_is_Retarget_witness :
  GetTreeScope forest 10 = 0%nat.
Proof.
  apply (AncestorInThisScope_is_Retarget 8 forest 0 12). reflexivity.
Defined.

Lemma AdjustedElement_strict_or_transparent_witness :
  AdjustedElement 8 forest 0 12 = Done (Some 10%nat)
  ∧ AdjustedElement 8 forest 1 12 = Done (Some 12%nat).
Proof.
  assert (length [12%nat; 11%nat; 10%nat] ≤ 8)%nat as Hfuel by (cbn; lia).
  split.
  - destruct (AdjustedElement_strict_or_transparent 8 forest 0 12
                [12%nat; 11%nat] 10%nat [] forest_hosts_12 Hfuel)
      as [Hstrict _]; [repeat constructor; discriminate|reflexivity|].
    apply Hstrict. reflexivity.
  - destruct (AdjustedElement_strict_or_transparent 8 forest 1 12
                [12%nat] 11%nat [10%nat] forest_hosts_12 Hfuel)
      as [_ Hnone]; [repeat constructor; discriminate|reflexivity|].
    apply Hnone. repeat constructor.
Defined.

Lemma AdjustedElement_on_walk_witness :
  ∃ adjusted,
    AdjustedElement 8 forest 0 12 = Done (Some adjusted)
    ∧ adjusted ∈ [12%nat; 11%nat] ++ [10%nat].
Proof.
  apply (AdjustedElement_on_walk 8 forest 0 12 [12%nat; 11%nat] 10%nat []
           forest_hosts_12); [cbn; lia| |reflexivity].
  repeat constructor; discriminate.
Defined.

Lemma AdjustedFocusedElement_strict_scope_witness :
  AdjustedFocusedElement focus_on_13 no_page no_frame_owner no_event_path
    8 forest 2 = Retarget 8 forest 2 13
  ∧ AdjustedFocusedElement focus_on_13 no_page no_frame_owner no_event_path
      8 forest 4 = Done None.
Proof.
  split.
  - apply (AdjustedFocusedElement_strict_scope focus_on_13 no_page
             no_frame_owner no_event_path 8 forest 2); reflexivity.
  - apply (AdjustedFocusedElement_strict_scope focus_on_13 no_page
             no_frame_owner no_event_path 8 forest 4). reflexivity.
Defined.

Lemma SetParentTreeScope_chain_witness :
  ∃ h', SetParentTreeScope forest 1 4 = Done h'
    ∧ AncestorChain h' 1 [1%nat; 4%nat].
Proof.
  destruct (SetParentTreeScope_chain forest 1 4 _ eq_refl forest_chain_4)
    as (h' & Hrun & Hchain & _).
  - intros Hin. apply list_elem_of_singleton in Hin. discriminate Hin.
  - exists h'. by split.
Defined.

Lemma SetParentTreeScope_cycle_witness :
  ∃ h', SetParentTreeScope forest 1 3 = Done h'
    ∧ ancestor_chain 100 h' (Some 1%nat) = NoFuel.
Proof.
  destruct (SetParentTreeScope_cycle no_order forest 1 3 _ eq_refl
              forest_chain_3) as (h' & Hrun & Hloop).
  - apply elem_of_cons. right. apply elem_of_cons. by left.
  - exists h'. split; [exact Hrun|]. apply Hloop.
Defined.


Lemma index_call_sequences_witness :
  id_target_observer_registry_
    (scope_after_calls by_pointer
       [CallRemove "x" 7; CallGet "x"; CallAdd "y" 1] indexed_scope)
  = id_target_observer_registry_ indexed_scope ++ ["x"; "y"].
Proof.
  destruct (index_call_sequences by_pointer
              [CallRemove "x" 7; CallGet "x"; CallAdd "y" 1] indexed_scope)
    as (Hsome & _ & _).
  apply Hsome. eexists. reflexivity.
Defined.

(** Element 12 is hit twice in a row and element 13 once, seen from the
    document scope. *)
Lemma ElementsFromHitTestResult_pruned_witness :
  ∃ elements,
    ElementsFromHitTestResult every_node no_node no_node no_node no_parent
      document_element_10 8 forest 0 [Some 12%nat; Some 12%nat; None; Some 13%nat]
    = Done elements
    ∧ no_adjacent_duplicates elements
    ∧ list.last elements = Some 10%nat.
Proof.
  destruct (ElementsFromHitTestResult_pruned every_node no_node no_node no_node
              no_parent document_element_10 8 forest 0
              [Some 12%nat; Some 12%nat; None; Some 13%nat]
              forest_hosts_bounded) as (elements & Hrun & Hnodup & _ & Hlast).
  exists elements. split; [exact Hrun|]. split; [exact Hnodup|].
  by apply Hlast.
Defined.

Lemma HitTestPoint_in_scope_witness :
  GetTreeScope forest 11 = 1%nat ∧ every_node 11 = true.
Proof.
  apply (HitTestPoint_in_scope every_node no_node no_node no_node no_node
           no_parent hit_12 8 forest 1 0 0). reflexivity.
Defined.

Lemma GetElementByAccessKey_finds_match_witness :
  is_Some (Scan.GetElementByAccessKey ScanSamples.same_text "b"
             ScanSamples.document).
Proof.
  destruct (ScanMore.GetElementByAccessKey_finds_match ScanSamples.same_text
              "b" ScanSamples.document) as [_ Hfind].
  destruct (Hfind ltac:(discriminate)) as [_ Hsome].
  apply (Hsome ScanSamples.e3); [|reflexivity].
  cbn. repeat (apply elem_of_cons; (by left) || right).
Defined.

Lemma GetElementByAccessKey_document_order_witness :
  Scan.GetElementByAccessKey ScanSamples.same_text "a"
    ScanSamples.plain_document
  = list.last (List.filter (Scan.matches ScanSamples.same_text "a")
                 (Scan.DescendantsOf ScanSamples.plain_document)).
Proof.
  apply (ScanMore.GetElementByAccessKey_document_order ScanSamples.same_text
           "a" ScanSamples.plain_document); [discriminate|].
  repeat constructor.
Defined.


(** The image map lookups of the sample. *)
Example image_map_scenario :
  GetImageMap image_maps (Some "page.html#m") = Some 7%nat
  ∧ GetImageMap image_maps (Some "m") = Some 7%nat
  ∧ GetImageMap image_maps (Some "a#b#m") = None
  ∧ GetImageMap image_maps None = None.
Proof. repeat split; vm_compute; reflexivity. Qed.
